(** * RTCStream: the write-side flow control of the stream adapter

    A shallow embedding of [src/index.ts].  The class [RTCStream] wraps a
    [WebSocket] or an [RTCDataChannel] and implements the [Duplex] hooks
    [_write], [_writev], [_destroy] on top of it.  Its methods become
    functions in a small state / exception / trace monad over the private
    fields of the class; everything that leaves the class (calls on the
    handle, timers, callbacks supplied by the stream machinery) is recorded
    in a trace of effects, in call order. *)

From Stdlib Require Import ZArith List String Bool Lia.
From Stdlib Require Import Strings.Byte.
Import ListNotations.

Local Open Scope Z_scope.

(** ** Byte buffers *)

Module Buffer.

Definition t := list byte.

(** [buffer.length] *)
Definition length (b : t) : Z := Z.of_nat (List.length b).

(** [Buffer.concat(list)] *)
Definition concat (l : list t) : t := List.concat l.

(** Index normalisation of [slice]: a negative index counts from the end
    of the buffer, and the result is clamped to [0 .. len]. *)
Definition adjustOffset (offset len : Z) : Z :=
  if offset =? 0 then 0
  else if offset <? 0 then
    (if 0 <? offset + len then offset + len else 0)
  else if offset <? len then offset
  else len.

(** [buffer.slice(start, end)]; [end_ = None] is the one-argument call
    [buffer.slice(start)]. *)
Definition slice (b : t) (start : Z) (end_ : option Z) : t :=
  let srcLength := length b in
  let s := adjustOffset start srcLength in
  let e := match end_ with
           | Some e => adjustOffset e srcLength
           | None => srcLength
           end in
  let newLength := if s <? e then e - s else 0 in
  firstn (Z.to_nat newLength) (skipn (Z.to_nat s) b).

End Buffer.

(** ** Strings and their UTF-8 encoding

    A JavaScript string is a sequence of UTF-16 code units.
    [Buffer.from(s, "utf8")] encodes it as UTF-8; a surrogate that is not
    part of a pair is encoded as U+FFFD. *)

Definition JSString := list Z.

Definition byte_of_Z (z : Z) : byte :=
  match Byte.of_N (Z.to_N (z mod 256)) with
  | Some b => b
  | None => x00
  end.

Definition utf8CodePoint (c : Z) : Buffer.t :=
  if c <? 128 then [byte_of_Z c]
  else if c <? 2048 then
    [byte_of_Z (Z.lor (Z.shiftr c 6) 192);
     byte_of_Z (Z.lor (Z.land c 63) 128)]
  else if c <? 65536 then
    [byte_of_Z (Z.lor (Z.shiftr c 12) 224);
     byte_of_Z (Z.lor (Z.land (Z.shiftr c 6) 63) 128);
     byte_of_Z (Z.lor (Z.land c 63) 128)]
  else
    [byte_of_Z (Z.lor (Z.shiftr c 18) 240);
     byte_of_Z (Z.lor (Z.land (Z.shiftr c 12) 63) 128);
     byte_of_Z (Z.lor (Z.land (Z.shiftr c 6) 63) 128);
     byte_of_Z (Z.lor (Z.land c 63) 128)].

Definition isLeadSurrogate (u : Z) : bool := (55296 <=? u) && (u <=? 56319).
Definition isTrailSurrogate (u : Z) : bool := (56320 <=? u) && (u <=? 57343).

Definition replacementCharacter : Z := 65533.

Fixpoint utf8ToBytes (s : JSString) : Buffer.t :=
  match s with
  | [] => []
  | u :: rest =>
      if isLeadSurrogate u then
        match rest with
        | v :: rest' =>
            if isTrailSurrogate v then
              utf8CodePoint
                (Z.lor (Z.shiftl (u - 55296) 10) (v - 56320) + 65536)
              ++ utf8ToBytes rest'
            else utf8CodePoint replacementCharacter ++ utf8ToBytes rest
        | [] => utf8CodePoint replacementCharacter
        end
      else if isTrailSurrogate u then
        utf8CodePoint replacementCharacter ++ utf8ToBytes rest
      else utf8CodePoint u ++ utf8ToBytes rest
  end.

(** A chunk handed to [_write] / [_writev]: [typeof chunk === "string"] or
    a byte buffer. *)
Inductive Chunk :=
| StringChunk (s : JSString)
| BufferChunk (b : Buffer.t).

(** [(typeof chunk === "string") ? Buffer.from(chunk, "utf8") : chunk] *)
Definition chunkBytes (c : Chunk) : Buffer.t :=
  match c with
  | StringChunk s => utf8ToBytes s
  | BufferChunk b => b
  end.

(** ** Errors, state values, events *)

Record Error := mkError { name : string; message : string }.

(** [new Error(msg)] *)
Definition newError (msg : string) : Error := mkError "Error" msg.

Definition typeError (msg : string) : Error := mkError "TypeError" msg.

(** [readyState] and the two sentinels have type [number | string]. *)
Inductive StateValue :=
| NumberValue (n : Z)
| StringValue (s : string).

(** Strict equality [===] on state values. *)
Definition strictEq (a b : StateValue) : bool :=
  match a, b with
  | NumberValue n, NumberValue m => n =? m
  | StringValue s, StringValue r => String.eqb s r
  | _, _ => false
  end.

(** The two kinds of handle; a [WebSocket] carries the constants [OPEN]
    and [CLOSED], an [RTCDataChannel] does not. *)
Inductive HandleKind := WebSocket | RTCDataChannel.

Definition WebSocket_OPEN : StateValue := NumberValue 1.
Definition WebSocket_CLOSED : StateValue := NumberValue 3.

(** What the adapter reads from the handle during one synchronous run:
    [readyState], [bufferedAmount], and whether [send] raises on a given
    chunk ([None]: it returns normally). *)
Record Handle := mkHandle {
  readyState : StateValue;
  bufferedAmount : Z;
  send : Buffer.t -> option Error
}.

(** The event names ["open"], ["close"], ["error"], ["message"]. *)
Inductive EventName := EvOpen | EvClose | EvError | EvMessage.

(** The four arrow-function properties registered as listeners. *)
Inductive Listener := OnOpen | OnClose | OnError | OnMessage.

(** The argument of an [error] event: an [ErrorEvent] has a [message]
    property, a plain [Event] has none. *)
Record Event := mkEvent { eventMessage : option string }.

(** The [data] of a [MessageEvent]. *)
Inductive MessageData :=
| ArrayBufferData (b : Buffer.t)
| TextData (s : JSString).

(** The completion callback of a write is supplied by the stream
    machinery; the adapter only stores and calls it. *)
Definition WriteCallback := nat.

(** ** Effects visible outside the class, in call order *)

Inductive Effect :=
| SetBinaryType (v : string)
| AddEventListener (n : EventName) (l : Listener)
| RemoveEventListener (n : EventName) (l : Listener)
| NextTick (l : Listener)
| Emit (n : string)
| Push (b : Buffer.t)
| Send (chunk : Buffer.t)
| Close
| SetTimeout (delay : Z)
| CallWrite (cb : WriteCallback) (err : option Error)
| CallDestroy (err : option Error).

(** ** State

    Sizes, amounts of bytes and delays are integers. *)

Record RTCStreamOptions := mkOptions {
  opt_bufferSize : option Z;
  opt_bufferTimeout : option Z
}.

(** The private fields of the class (the handle itself is external). *)
Record RTCStream := mkRTCStream {
  bufferSize : Z;
  bufferTimeout : Z;
  openStateValue : StateValue;
  closedStateValue : StateValue;
  pendingWriteBuffer : option Buffer.t;
  pendingWriteCallback : option WriteCallback
}.

(** The adapter together with the two pieces of external state its
    methods act on: the [destroyed] flag kept by [Duplex], and the
    listeners it currently has registered on the handle. *)
Record World := mkWorld {
  this : RTCStream;
  destroyed : bool;
  listeners : list (EventName * Listener)
}.

Definition set_pendingWriteBuffer (v : option Buffer.t) (w : World) : World :=
  let s := this w in
  mkWorld
    (mkRTCStream (bufferSize s) (bufferTimeout s) (openStateValue s)
       (closedStateValue s) v (pendingWriteCallback s))
    (destroyed w) (listeners w).

Definition set_pendingWriteCallback (v : option WriteCallback) (w : World)
  : World :=
  let s := this w in
  mkWorld
    (mkRTCStream (bufferSize s) (bufferTimeout s) (openStateValue s)
       (closedStateValue s) (pendingWriteBuffer s) v)
    (destroyed w) (listeners w).

Definition set_destroyed (v : bool) (w : World) : World :=
  mkWorld (this w) v (listeners w).

Definition set_listeners (v : list (EventName * Listener)) (w : World)
  : World :=
  mkWorld (this w) (destroyed w) v.

(** ** The monad: state, exceptions, and a trace of effects *)

Inductive Completion (A : Type) :=
| Normal (v : A)
| Throw (e : Error).
Arguments Normal {A} v.
Arguments Throw {A} e.

Record Outcome (A : Type) := mkOutcome {
  completion : Completion A;
  world : World;
  trace : list Effect
}.
Arguments mkOutcome {A}.
Arguments completion {A}.
Arguments world {A}.
Arguments trace {A}.

Definition M (A : Type) := World -> Outcome A.

Definition ret {A} (v : A) : M A := fun w => mkOutcome (Normal v) w [].

Definition bind {A B} (m : M A) (k : A -> M B) : M B :=
  fun w =>
    match m w with
    | mkOutcome (Normal v) w1 tr1 =>
        match k v w1 with
        | mkOutcome c w2 tr2 => mkOutcome c w2 (tr1 ++ tr2)
        end
    | mkOutcome (Throw e) w1 tr1 => mkOutcome (Throw e) w1 tr1
    end.

Definition throw {A} (e : Error) : M A := fun w => mkOutcome (Throw e) w [].

(** [try { m } catch (e) { handler(e) }] *)
Definition tryCatch {A} (m : M A) (handler : Error -> M A) : M A :=
  fun w =>
    match m w with
    | mkOutcome (Normal v) w1 tr1 => mkOutcome (Normal v) w1 tr1
    | mkOutcome (Throw e) w1 tr1 =>
        match handler e w1 with
        | mkOutcome c w2 tr2 => mkOutcome c w2 (tr1 ++ tr2)
        end
    end.

Definition gets {A} (f : World -> A) : M A :=
  fun w => mkOutcome (Normal (f w)) w [].

Definition modify (f : World -> World) : M unit :=
  fun w => mkOutcome (Normal tt) (f w) [].

Definition perform (e : Effect) : M unit :=
  fun w => mkOutcome (Normal tt) w [e].

Declare Scope m_scope.
Delimit Scope m_scope with m.
Notation "x <- m ;; k" := (bind m (fun x => k))
  (at level 61, m at next level, right associativity) : m_scope.
Notation "m ;; k" := (bind m (fun _ => k))
  (at level 61, right associativity) : m_scope.
Local Open Scope m_scope.

(** ** Calls that leave the class *)

(** [handle.addEventListener(n, l)]: registering a listener that is
    already registered has no effect. *)
Definition eventNameEq (a b : EventName) : bool :=
  match a, b with
  | EvOpen, EvOpen | EvClose, EvClose
  | EvError, EvError | EvMessage, EvMessage => true
  | _, _ => false
  end.

Definition listenerEq (a b : Listener) : bool :=
  match a, b with
  | OnOpen, OnOpen | OnClose, OnClose
  | OnError, OnError | OnMessage, OnMessage => true
  | _, _ => false
  end.

Definition sameRegistration (a b : EventName * Listener) : bool :=
  eventNameEq (fst a) (fst b) && listenerEq (snd a) (snd b).

Definition registered (r : EventName * Listener) (w : World) : bool :=
  existsb (sameRegistration r) (listeners w).

Definition addEventListener (n : EventName) (l : Listener) : M unit :=
  perform (AddEventListener n l) ;;
  modify (fun w =>
            if registered (n, l) w then w
            else set_listeners (listeners w ++ [(n, l)]) w).

Definition removeEventListener (n : EventName) (l : Listener) : M unit :=
  perform (RemoveEventListener n l) ;;
  modify (fun w =>
            set_listeners
              (filter (fun r => negb (sameRegistration (n, l) r)) (listeners w))
              w).

(** [handle.send(chunk)]: the call is recorded, then it returns or
    raises as the handle decides. *)
Definition handleSend (handle : Handle) (chunk : Buffer.t) : M unit :=
  perform (Send chunk) ;;
  match send handle chunk with
  | Some e => throw e
  | None => ret tt
  end.

(** What a write callback does when it is called.  It is code of the
    stream machinery and may call back into the adapter before it
    returns, so it is a computation on the same state. *)
Definition CallbackBody := WriteCallback -> option Error -> M unit.

(** A callback that does not call back into the adapter. *)
Definition quiet : CallbackBody := fun _ _ => ret tt.

(** ** The class [RTCStream] *)

Record ChunkItem := mkChunkItem { chunk : Chunk; encoding : string }.

(** [new RTCStream(handle, options)] *)
Definition constructor (kind : HandleKind) (handle : Handle)
    (options : RTCStreamOptions) : Outcome unit :=
  let bufferSize :=
    match opt_bufferSize options with Some v => v | None => 1024 * 512 end in
  let bufferTimeout :=
    match opt_bufferTimeout options with Some v => v | None => 50 end in
  let '(openStateValue, closedStateValue) :=
    match kind with
    | WebSocket => (WebSocket_OPEN, WebSocket_CLOSED)
    | RTCDataChannel => (StringValue "open", StringValue "closed")
    end in
  (perform (SetBinaryType "arraybuffer") ;;
   addEventListener EvOpen OnOpen ;;
   addEventListener EvClose OnClose ;;
   addEventListener EvError OnError ;;
   addEventListener EvMessage OnMessage ;;
   let readyState := readyState handle in
   if strictEq readyState openStateValue then perform (NextTick OnOpen)
   else if strictEq readyState closedStateValue then perform (NextTick OnClose)
   else ret tt)
    (mkWorld
       (mkRTCStream bufferSize bufferTimeout openStateValue closedStateValue
          None None)
       false []).

(** [_destroy(error, callback)] *)
Definition _destroy (error : option Error)
    (callback : option Error -> M unit) : M unit :=
  removeEventListener EvMessage OnMessage ;;
  removeEventListener EvError OnError ;;
  removeEventListener EvClose OnClose ;;
  removeEventListener EvOpen OnOpen ;;
  perform Close ;;
  callback error.

(** [this.destroy(error)], inherited from [Duplex]: the first call marks the
    stream destroyed and runs [_destroy]; later calls do nothing. *)
Definition destroy (error : option Error) : M unit :=
  d <- gets destroyed ;;
  if d then ret tt
  else
    modify (set_destroyed true) ;;
    _destroy error (fun e => perform (CallDestroy e)).

(** [_onMessage] *)
Definition _onMessage (event : MessageData) : M unit :=
  perform (Push match event with
                | ArrayBufferData data => data
                | TextData data => utf8ToBytes data
                end).

(** [_read(size)] *)
Definition _read (size : Z) : M unit := ret tt.

Section Methods.

Variable callbackBody : CallbackBody.

(** [cb(error)] *)
Definition callWrite (cb : WriteCallback) (error : option Error) : M unit :=
  perform (CallWrite cb error) ;;
  callbackBody cb error.

(** [_finishPendingWrite(error)] *)
Definition _finishPendingWrite (error : option Error) : M unit :=
  cb <- gets (fun w => pendingWriteCallback (this w)) ;;
  modify (set_pendingWriteBuffer None) ;;
  modify (set_pendingWriteCallback None) ;;
  match cb with
  | Some cb => callWrite cb error
  | None => throw (typeError "cb is not a function")
  end.

(** [setTimeout(this._maybeProcessPendingWrite, this.#bufferTimeout)] *)
Definition scheduleRetry : M unit :=
  delay <- gets (fun w => bufferTimeout (this w)) ;;
  perform (SetTimeout delay).

(** [_maybeProcessPendingWrite()] *)
Definition _maybeProcessPendingWrite (handle : Handle) : M unit :=
  cb <- gets (fun w => pendingWriteCallback (this w)) ;;
  match cb with
  | None => ret tt
  | Some _ =>
      closedStateValue <- gets (fun w => closedStateValue (this w)) ;;
      openStateValue <- gets (fun w => openStateValue (this w)) ;;
      if strictEq (readyState handle) closedStateValue then
        _finishPendingWrite (Some (newError "not connected"))
      else if negb (strictEq (readyState handle) openStateValue) then
        ret tt
      else
        bufferSize <- gets (fun w => bufferSize (this w)) ;;
        let bufferSpaceAvailable := bufferSize - bufferedAmount handle in
        if bufferSpaceAvailable =? 0 then scheduleRetry
        else
          pending <- gets (fun w => pendingWriteBuffer (this w)) ;;
          match pending with
          | None => throw (typeError "cannot read property length of null")
          | Some buffer =>
              let '(chunk, rest) :=
                if bufferSpaceAvailable <? Buffer.length buffer then
                  (Buffer.slice buffer 0 (Some bufferSpaceAvailable),
                   Some (Buffer.slice buffer bufferSpaceAvailable None))
                else (buffer, None) in
              sent <- tryCatch
                        (handleSend handle chunk ;; ret true)
                        (fun e => _finishPendingWrite (Some e) ;; ret false) ;;
              if sent then
                match rest with
                | Some rest =>
                    modify (set_pendingWriteBuffer (Some rest)) ;;
                    scheduleRetry
                | None => _finishPendingWrite None
                end
              else ret tt
          end
  end.

(** [_writev(chunks, callback)] *)
Definition _writev (handle : Handle) (chunks : list ChunkItem)
    (callback : WriteCallback) : M unit :=
  modify (set_pendingWriteBuffer
            (Some (Buffer.concat (map (fun c => chunkBytes (chunk c)) chunks)))) ;;
  modify (set_pendingWriteCallback (Some callback)) ;;
  _maybeProcessPendingWrite handle.

(** [_write(chunk, encoding, callback)] *)
Definition _write (handle : Handle) (chunk : Chunk) (encoding : string)
    (callback : WriteCallback) : M unit :=
  _writev handle [mkChunkItem chunk encoding] callback.

(** [_onOpen] *)
Definition _onOpen (handle : Handle) : M unit :=
  perform (Emit "connect") ;;
  _maybeProcessPendingWrite handle.

(** [_onClose] *)
Definition _onClose (handle : Handle) : M unit :=
  _maybeProcessPendingWrite handle ;;
  destroy (Some (newError "connection closed")).

(** [_onError] *)
Definition _onError (handle : Handle) (event : Event) : M unit :=
  _maybeProcessPendingWrite handle ;;
  destroy (Some (newError match eventMessage event with
                          | Some m => m
                          | None => "connection refused"
                          end)).

End Methods.

(** ** The host

    Everything that calls into the adapter: the stream machinery
    ([_write], [_writev], [_read], [destroy]), the handle firing an event
    at the listeners registered on it, and the tasks the adapter has
    queued itself ([nextTick] in the constructor, [setTimeout] in the
    advance routine).  Each call runs to completion against one reading of
    the handle. *)

Inductive TransportEvent :=
| OpenEvent
| CloseEvent
| ErrorEvent (event : Event)
| MessageEvent (data : MessageData).

Inductive Op :=
| OpWrite (chunk : Chunk) (encoding : string) (callback : WriteCallback)
| OpWritev (chunks : list ChunkItem) (callback : WriteCallback)
| OpRead (size : Z)
| OpDestroy (error : option Error)
| OpDispatch (ev : TransportEvent)
| OpTickOnOpen
| OpTickOnClose
| OpTimer
| OpFinish (error : option Error).

Section Host.

Variable callbackBody : CallbackBody.

(** The handle fires an event: the listener runs if it is registered. *)
Definition dispatch (handle : Handle) (ev : TransportEvent) : M unit :=
  match ev with
  | OpenEvent =>
      r <- gets (registered (EvOpen, OnOpen)) ;;
      if r then _onOpen callbackBody handle else ret tt
  | CloseEvent =>
      r <- gets (registered (EvClose, OnClose)) ;;
      if r then _onClose callbackBody handle else ret tt
  | ErrorEvent event =>
      r <- gets (registered (EvError, OnError)) ;;
      if r then _onError callbackBody handle event else ret tt
  | MessageEvent data =>
      r <- gets (registered (EvMessage, OnMessage)) ;;
      if r then _onMessage data else ret tt
  end.

Definition step (handle : Handle) (op : Op) : M unit :=
  match op with
  | OpWrite chunk encoding callback =>
      _write callbackBody handle chunk encoding callback
  | OpWritev chunks callback => _writev callbackBody handle chunks callback
  | OpRead size => _read size
  | OpDestroy error => destroy error
  | OpDispatch ev => dispatch handle ev
  | OpTickOnOpen => _onOpen callbackBody handle
  | OpTickOnClose => _onClose callbackBody handle
  | OpTimer => _maybeProcessPendingWrite callbackBody handle
  | OpFinish error => _finishPendingWrite callbackBody error
  end.

(** A sequence of calls, each with the reading of the handle it runs
    against.  An exception escaping one call does not prevent the next
    task from running. *)
Fixpoint runOps (ops : list (Handle * Op)) (w : World)
  : World * list Effect :=
  match ops with
  | [] => (w, [])
  | (handle, op) :: rest =>
      let o := step handle op w in
      let '(w', tr) := runOps rest (world o) in
      (w', trace o ++ tr)
  end.

End Host.

(** *** Timers and sequential writes *)

Definition isSetTimeout (e : Effect) : bool :=
  match e with SetTimeout _ => true | _ => false end.

(** A call armed a retry timer. *)
Definition armed (tr : list Effect) : bool := existsb isSetTimeout tr.

(** Run the retry timers that follow a call: as long as the last run armed
    a timer, the timer fires and the advance routine runs again, against
    the reading [env t] of the handle at that moment.  [fuel] bounds the
    number of timer firings. *)
Fixpoint settle (fuel : nat) (env : nat -> Handle) (t : nat)
    (o : Outcome unit) : Outcome unit * nat :=
  if armed (trace o) then
    match fuel with
    | O => (o, t)
    | S fuel' =>
        let '(o', t') :=
          settle fuel' env (S t)
            (_maybeProcessPendingWrite quiet (env t) (world o)) in
        (mkOutcome (completion o') (world o') (trace o ++ trace o'), t')
    end
  else (o, t).

(** One write and the timers it arms. *)
Definition writeOne (fuel : nat) (env : nat -> Handle) (t : nat)
    (chunks : list ChunkItem) (callback : WriteCallback) (w : World)
  : Outcome unit * nat :=
  settle fuel env (S t) (_writev quiet (env t) chunks callback w).

Definition isSuccess (e : Effect) : bool :=
  match e with CallWrite _ None => true | _ => false end.

(** Writes as [Duplex] submits them: one at a time, the next one only
    after the callback of the previous one was called without error. *)
Fixpoint writeAll (fuel : nat) (env : nat -> Handle) (t : nat)
    (writes : list (list ChunkItem * WriteCallback)) (w : World)
  : World * list Effect * nat :=
  match writes with
  | [] => (w, [], t)
  | (chunks, callback) :: rest =>
      let '(o, t1) := writeOne fuel env t chunks callback w in
      if existsb isSuccess (trace o) then
        let '(w2, tr2, t2) := writeAll fuel env t1 rest (world o) in
        (w2, trace o ++ tr2, t2)
      else (world o, trace o, t1)
  end.

(** ** Reading a trace *)

(** The bytes passed to [handle.send], in call order. *)
Fixpoint sentBytes (tr : list Effect) : Buffer.t :=
  match tr with
  | [] => []
  | Send chunk :: tr' => chunk ++ sentBytes tr'
  | _ :: tr' => sentBytes tr'
  end.

(** The write callbacks called, with their argument, in call order. *)
Fixpoint writeCalls (tr : list Effect) : list (WriteCallback * option Error) :=
  match tr with
  | [] => []
  | CallWrite cb error :: tr' => (cb, error) :: writeCalls tr'
  | _ :: tr' => writeCalls tr'
  end.

(** The chunks passed to [handle.send], one per call. *)
Fixpoint sendCalls (tr : list Effect) : list Buffer.t :=
  match tr with
  | [] => []
  | Send chunk :: tr' => chunk :: sendCalls tr'
  | _ :: tr' => sendCalls tr'
  end.

Definition submitted (chunks : list ChunkItem) : Buffer.t :=
  Buffer.concat (map (fun c => chunkBytes (chunk c)) chunks).

Definition bytes (l : list Z) : Buffer.t := map byte_of_Z l.

(** Both pending fields cleared, as [_finishPendingWrite] leaves them. *)
Definition clearPending (w : World) : World :=
  set_pendingWriteCallback None (set_pendingWriteBuffer None w).

(** The pending fields as [_writev] installs them. *)
Definition installPending (buffer : Buffer.t) (callback : WriteCallback)
    (w : World) : World :=
  set_pendingWriteCallback (Some callback)
    (set_pendingWriteBuffer (Some buffer) w).

(** The pair of pending fields is either fully set or fully absent. *)
Definition paired (w : World) : Prop :=
  pendingWriteBuffer (this w) = None <-> pendingWriteCallback (this w) = None.

(** The headroom the advance routine computes. *)
Definition bufferSpaceAvailable (w : World) (handle : Handle) : Z :=
  bufferSize (this w) - bufferedAmount handle.

Definition allListeners : list (EventName * Listener) :=
  [(EvOpen, OnOpen); (EvClose, OnClose); (EvError, OnError);
   (EvMessage, OnMessage)].

(** The calls [_destroy] makes, in order. *)
Definition destroyTrace (error : option Error) : list Effect :=
  [RemoveEventListener EvMessage OnMessage;
   RemoveEventListener EvError OnError;
   RemoveEventListener EvClose OnClose;
   RemoveEventListener EvOpen OnOpen;
   Close;
   CallDestroy error].

(** States the adapter can be in: a freshly constructed one, and any
    state a call of the host leads to.  A write callback is the last
    thing a method does with the pending fields, so what a callback does
    by calling back into the adapter is covered by the calls that
    follow. *)
Inductive Reachable : World -> Prop :=
| reachable_new kind handle options :
    Reachable (world (constructor kind handle options))
| reachable_step w handle op :
    Reachable w -> Reachable (world (step quiet handle op w)).

(** ** Outcomes, states and traces of calls *)

(** An outcome with more effects in front. *)
Definition after {A} (tr : list Effect) (o : Outcome A) : Outcome A :=
  mkOutcome (completion o) (world o) (tr ++ trace o).

(** The chunk the advance routine passes to [send]. *)
Definition chunkToSend (handle : Handle) (w : World) (buffer : Buffer.t)
  : Buffer.t :=
  if bufferSpaceAvailable w handle <? Buffer.length buffer
  then Buffer.slice buffer 0 (Some (bufferSpaceAvailable w handle))
  else buffer.

(** With callbacks that do not call back, one run of the advance routine
    has one of eight shapes. *)
Inductive Advanced (handle : Handle) (w : World) : Outcome unit -> Prop :=
| adv_idle :
    pendingWriteCallback (this w) = None ->
    Advanced handle w (mkOutcome (Normal tt) w [])
| adv_closed cb :
    pendingWriteCallback (this w) = Some cb ->
    readyState handle = closedStateValue (this w) ->
    Advanced handle w
      (mkOutcome (Normal tt) (clearPending w)
         [CallWrite cb (Some (newError "not connected"))])
| adv_waiting cb :
    pendingWriteCallback (this w) = Some cb ->
    readyState handle <> closedStateValue (this w) ->
    readyState handle <> openStateValue (this w) ->
    Advanced handle w (mkOutcome (Normal tt) w [])
| adv_no_room cb :
    pendingWriteCallback (this w) = Some cb ->
    readyState handle <> closedStateValue (this w) ->
    readyState handle = openStateValue (this w) ->
    bufferSpaceAvailable w handle = 0 ->
    Advanced handle w
      (mkOutcome (Normal tt) w [SetTimeout (bufferTimeout (this w))])
| adv_half_set cb :
    pendingWriteCallback (this w) = Some cb ->
    pendingWriteBuffer (this w) = None ->
    readyState handle <> closedStateValue (this w) ->
    readyState handle = openStateValue (this w) ->
    bufferSpaceAvailable w handle <> 0 ->
    Advanced handle w
      (mkOutcome (Throw (typeError "cannot read property length of null"))
         w [])
| adv_partial cb buffer :
    pendingWriteCallback (this w) = Some cb ->
    pendingWriteBuffer (this w) = Some buffer ->
    readyState handle <> closedStateValue (this w) ->
    readyState handle = openStateValue (this w) ->
    bufferSpaceAvailable w handle <> 0 ->
    bufferSpaceAvailable w handle < Buffer.length buffer ->
    send handle (chunkToSend handle w buffer) = None ->
    Advanced handle w
      (mkOutcome (Normal tt)
         (set_pendingWriteBuffer
            (Some (Buffer.slice buffer (bufferSpaceAvailable w handle) None))
            w)
         [Send (chunkToSend handle w buffer);
          SetTimeout (bufferTimeout (this w))])
| adv_whole cb buffer :
    pendingWriteCallback (this w) = Some cb ->
    pendingWriteBuffer (this w) = Some buffer ->
    readyState handle <> closedStateValue (this w) ->
    readyState handle = openStateValue (this w) ->
    bufferSpaceAvailable w handle <> 0 ->
    Buffer.length buffer <= bufferSpaceAvailable w handle ->
    send handle buffer = None ->
    Advanced handle w
      (mkOutcome (Normal tt) (clearPending w)
         [Send buffer; CallWrite cb None])
| adv_send_raises cb buffer e :
    pendingWriteCallback (this w) = Some cb ->
    pendingWriteBuffer (this w) = Some buffer ->
    readyState handle <> closedStateValue (this w) ->
    readyState handle = openStateValue (this w) ->
    bufferSpaceAvailable w handle <> 0 ->
    send handle (chunkToSend handle w buffer) = Some e ->
    Advanced handle w
      (mkOutcome (Normal tt) (clearPending w)
         [Send (chunkToSend handle w buffer); CallWrite cb (Some e)]).

(** The read-only fields. *)
Definition config (w : World) : Z * Z * StateValue * StateValue :=
  (bufferSize (this w), bufferTimeout (this w),
   openStateValue (this w), closedStateValue (this w)).

(** The listeners left after [_destroy] has removed its four. *)
Definition afterRemoval (ls : list (EventName * Listener))
  : list (EventName * Listener) :=
  filter (fun r => negb (sameRegistration (EvOpen, OnOpen) r))
    (filter (fun r => negb (sameRegistration (EvClose, OnClose) r))
       (filter (fun r => negb (sameRegistration (EvError, OnError) r))
          (filter (fun r => negb (sameRegistration (EvMessage, OnMessage) r))
             ls))).

(** The call hands the callback [cb] to the adapter. *)
Definition submits (op : Op) (cb : WriteCallback) : Prop :=
  match op with
  | OpWrite _ _ callback | OpWritev _ callback => callback = cb
  | _ => False
  end.

(** Either the four listeners are registered and the stream is live, or
    none is and it is destroyed. *)
Definition wired (w : World) : Prop :=
  (destroyed w = false /\ listeners w = allListeners) \/
  (destroyed w = true /\ listeners w = []).

(** The effects a call can have, by the state and the reading of the
    handle it starts from. *)
Definition allowed (handle : Handle) (op : Op) (w : World) (e : Effect)
  : Prop :=
  match e with
  | Send _ => readyState handle = openStateValue (this w)
  | CallWrite cb _ => pendingWriteCallback (this w) = Some cb \/ submits op cb
  | RemoveEventListener _ _ | Close | CallDestroy _ => destroyed w = false
  | SetTimeout delay => delay = bufferTimeout (this w)
  | Emit _ | Push _ => True
  | SetBinaryType _ | AddEventListener _ _ | NextTick _ => False
  end.

(** The handle is open, has room, and accepts what it is sent. *)
Definition accepting (w : World) (handle : Handle) : Prop :=
  readyState handle = openStateValue (this w) /\
  0 < bufferSpaceAvailable w handle /\
  forall c, send handle c = None.

(** What one step is to do when the headroom is smaller than the pending
    buffer: send the prefix of the pending buffer whose length is the
    headroom, keep the remaining suffix pending with the same callback,
    and schedule a retry after [bufferTimeout]. *)
Definition sendsHeadroomPrefix (w : World) (handle : Handle) : Prop :=
  exists buffer cb chunk rest,
    pendingWriteBuffer (this w) = Some buffer /\
    pendingWriteCallback (this w) = Some cb /\
    buffer = chunk ++ rest /\
    Buffer.length chunk = bufferSpaceAvailable w handle /\
    trace (_maybeProcessPendingWrite quiet handle w) =
      [Send chunk; SetTimeout (bufferTimeout (this w))] /\
    pendingWriteBuffer (this (world (_maybeProcessPendingWrite quiet handle w)))
      = Some rest /\
    pendingWriteCallback
      (this (world (_maybeProcessPendingWrite quiet handle w))) = Some cb.

Definition isSend (e : Effect) : bool :=
  match e with Send _ => true | _ => false end.

(** The calls [_destroy] makes. *)
Definition isDestroyEffect (e : Effect) : bool :=
  match e with
  | RemoveEventListener _ _ | Close | CallDestroy _ => true
  | _ => false
  end.

Definition isCloseOrError (ev : TransportEvent) : Prop :=
  match ev with
  | CloseEvent | ErrorEvent _ => True
  | _ => False
  end.

(** The registration through which an event reaches the adapter. *)
Definition listenerFor (ev : TransportEvent) : EventName * Listener :=
  match ev with
  | OpenEvent => (EvOpen, OnOpen)
  | CloseEvent => (EvClose, OnClose)
  | ErrorEvent _ => (EvError, OnError)
  | MessageEvent _ => (EvMessage, OnMessage)
  end.

(** The error a close or error event destroys the stream with. *)
Definition destroyErrorFor (ev : TransportEvent) : Error :=
  match ev with
  | ErrorEvent {| eventMessage := Some m |} => newError m
  | ErrorEvent {| eventMessage := None |} => newError "connection refused"
  | _ => newError "connection closed"
  end.

(** ** Accounting of bytes over arbitrary schedules *)

(** The bytes of the outstanding write that are not yet sent. *)
Definition pendingBytes (w : World) : Buffer.t :=
  match pendingWriteBuffer (this w) with
  | Some buffer => buffer
  | None => []
  end.

(** The bytes a call submits. *)
Definition opBytes (op : Op) : Buffer.t :=
  match op with
  | OpWrite c encoding _ => submitted [mkChunkItem c encoding]
  | OpWritev chunks _ => submitted chunks
  | _ => []
  end.

Definition isWriteOp (op : Op) : Prop :=
  match op with
  | OpWrite _ _ _ | OpWritev _ _ => True
  | _ => False
  end.

(** A schedule of calls in which no write fails: writes are submitted
    only when none is outstanding, the handle is never read in the closed
    state, [send] never raises, and only the adapter itself completes a
    write. *)
Fixpoint orderly (ops : list (Handle * Op)) (w : World) : Prop :=
  match ops with
  | [] => True
  | (handle, op) :: rest =>
      (isWriteOp op -> pendingWriteCallback (this w) = None) /\
      readyState handle <> closedStateValue (this w) /\
      (forall c, send handle c = None) /\
      (forall error, op <> OpFinish error) /\
      orderly rest (world (step quiet handle op w))
  end.

(** ** Example data *)

Definition openSocket (buffered : Z) : Handle :=
  mkHandle (NumberValue 1) buffered (fun _ => None).

Definition connectingSocket : Handle :=
  mkHandle (NumberValue 0) 0 (fun _ => None).

Definition closingSocket : Handle :=
  mkHandle (NumberValue 2) 0 (fun _ => None).

Definition closedSocket : Handle :=
  mkHandle (NumberValue 3) 0 (fun _ => None).

(** A socket whose [send] raises. *)
Definition failingSocket : Handle :=
  mkHandle (NumberValue 1) 0 (fun _ => Some (newError "send failed")).

(** A fresh adapter on a socket that is still connecting, with the given
    [bufferSize]. *)
Definition freshWorld (size : Z) : World :=
  world (constructor WebSocket connectingSocket (mkOptions (Some size) None)).

(** The same adapter after [_write] of the given bytes with callback
    [cb], the socket still connecting. *)
Definition queuedWorld (size : Z) (data : list Z) (cb : WriteCallback)
  : World :=
  world (step quiet connectingSocket
           (OpWrite (BufferChunk (bytes data)) "buffer" cb)
           (freshWorld size)).

Definition fifteen : list Z := [1; 2; 3; 4; 5; 6; 7; 8; 9; 10; 11; 12; 13; 14; 15].

Definition exampleWrites : list (list ChunkItem * WriteCallback) :=
  [([mkChunkItem (BufferChunk (bytes fifteen)) "buffer"], 1%nat);
   ([mkChunkItem (StringChunk [104; 233]) "utf8";
     mkChunkItem (BufferChunk (bytes [7; 8])) "buffer"], 2%nat)].

(** ** The exported factory and further readings of a trace *)

(** [from(handle, options = {})]: an omitted [options] is the empty
    object. *)
Definition from (kind : HandleKind) (handle : Handle)
    (options : option RTCStreamOptions) : Outcome unit :=
  constructor kind handle
    match options with
    | Some options => options
    | None => mkOptions None None
    end.

(** The bytes [_onMessage] pushes for a payload. *)
Definition messageBytes (data : MessageData) : Buffer.t :=
  match data with
  | ArrayBufferData data => data
  | TextData data => utf8ToBytes data
  end.

(** The buffers pushed to the readable side, in call order. *)
Fixpoint pushes (tr : list Effect) : list Buffer.t :=
  match tr with
  | [] => []
  | Push b :: tr' => b :: pushes tr'
  | _ :: tr' => pushes tr'
  end.

(** The delays of the timers armed, in call order. *)
Fixpoint timeouts (tr : list Effect) : list Z :=
  match tr with
  | [] => []
  | SetTimeout delay :: tr' => delay :: timeouts tr'
  | _ :: tr' => timeouts tr'
  end.

(** The tasks queued with [nextTick], in call order. *)
Fixpoint ticks (tr : list Effect) : list Listener :=
  match tr with
  | [] => []
  | NextTick l :: tr' => l :: ticks tr'
  | _ :: tr' => ticks tr'
  end.

(** The callback of the outstanding write, if there is one. *)
Definition pendingCallbacks (w : World) : list WriteCallback :=
  match pendingWriteCallback (this w) with
  | Some cb => [cb]
  | None => []
  end.

(** The callback a call hands in. *)
Definition opCallbacks (op : Op) : list WriteCallback :=
  match op with
  | OpWrite _ _ callback | OpWritev _ callback => [callback]
  | _ => []
  end.

(** A schedule in which a write is submitted only when none is
    outstanding, as [Duplex] does. *)
Fixpoint oneAtATime (ops : list (Handle * Op)) (w : World) : Prop :=
  match ops with
  | [] => True
  | (handle, op) :: rest =>
      (isWriteOp op -> pendingWriteCallback (this w) = None) /\
      oneAtATime rest (world (step quiet handle op w))
  end.

(** A socket that is open and has exactly no room left. *)
Definition fullSocket : Handle :=
  mkHandle (NumberValue 1) 10 (fun _ => None).

(** ** The write callback of the stream machinery *)

(** The callback that [Duplex] passes to [_write] and [_writev], as far
    as the adapter is concerned: given an error, the writable side
    destroys the stream with that error (its default, [autoDestroy]);
    given none, it does nothing to the adapter. *)
Definition duplexCallback : CallbackBody :=
  fun _ error =>
    match error with
    | Some e => destroy (Some e)
    | None => ret tt
    end.

(** The error the write callback was given, if it was given one. *)
Definition failureOf (tr : list Effect) : option Error :=
  match writeCalls tr with
  | (_, Some e) :: _ => Some e
  | _ => None
  end.

(** * Properties *)

(** ** Basic facts *)

Lemma strictEq_true_iff (a b : StateValue) : strictEq a b = true <-> a = b.
Proof.
  destruct a as [n|s], b as [m|r]; simpl; split; intros H;
    try discriminate; try congruence.
  - apply Z.eqb_eq in H. now subst.
  - inversion H. apply Z.eqb_refl.
  - apply String.eqb_eq in H. now subst.
  - inversion H. apply String.eqb_refl.
Qed.

Lemma strictEq_refl (a : StateValue) : strictEq a a = true.
Proof. now apply strictEq_true_iff. Qed.

Lemma strictEq_false_iff (a b : StateValue) : strictEq a b = false <-> a <> b.
Proof.
  rewrite <- strictEq_true_iff. destruct (strictEq a b); split; congruence.
Qed.

Lemma outcome_eta {A} (o : Outcome A) :
  mkOutcome (completion o) (world o) (trace o) = o.
Proof. now destruct o. Qed.

Lemma after_nil {A} (o : Outcome A) : after [] o = o.
Proof. now destruct o. Qed.

(** Sequencing, by the outcome of the first computation. *)
Lemma bind_unfold {A B} (m : M A) (f : A -> M B) (w : World) :
  bind m f w =
    match completion (m w) with
    | Normal v => after (trace (m w)) (f v (world (m w)))
    | Throw e => mkOutcome (Throw e) (world (m w)) (trace (m w))
    end.
Proof.
  unfold bind, after. destruct (m w) as [[v|e] w1 tr1]; simpl; auto.
  now destruct (f v w1).
Qed.

Lemma bind_gets {A B} (g : World -> A) (f : A -> M B) (w : World) :
  bind (gets g) f w = f (g w) w.
Proof. rewrite bind_unfold. simpl. apply after_nil. Qed.

Lemma bind_perform {B} (e : Effect) (f : unit -> M B) (w : World) :
  bind (perform e) f w = after [e] (f tt w).
Proof. now rewrite bind_unfold. Qed.

Lemma adjustOffset_range (offset len : Z) :
  0 <= len -> 0 <= Buffer.adjustOffset offset len <= len.
Proof.
  intros Hlen. unfold Buffer.adjustOffset.
  destruct (Z.eqb_spec offset 0); [lia|].
  destruct (Z.ltb_spec offset 0).
  - destruct (Z.ltb_spec 0 (offset + len)); lia.
  - destruct (Z.ltb_spec offset len); lia.
Qed.

Lemma length_nonneg (b : Buffer.t) : 0 <= Buffer.length b.
Proof. unfold Buffer.length. lia. Qed.

(** The two slices taken by the advance routine split the buffer, at
    whatever index. *)
Lemma slice_split (b : Buffer.t) (n : Z) :
  Buffer.slice b 0 (Some n) ++ Buffer.slice b n None = b.
Proof.
  unfold Buffer.slice.
  pose proof (adjustOffset_range n (Buffer.length b) (length_nonneg b)) as Hr.
  set (k := Buffer.adjustOffset n (Buffer.length b)) in *.
  change (Buffer.adjustOffset 0 (Buffer.length b)) with 0.
  assert (Hfst : Z.to_nat (if 0 <? k then k - 0 else 0) = Z.to_nat k).
  { destruct (Z.ltb_spec 0 k); f_equal; lia. }
  rewrite Hfst. simpl skipn at 1.
  assert (Hsnd : firstn
                   (Z.to_nat (if k <? Buffer.length b
                              then Buffer.length b - k else 0))
                   (skipn (Z.to_nat k) b) = skipn (Z.to_nat k) b).
  { apply firstn_all2. rewrite length_skipn. unfold Buffer.length in *.
    destruct (Z.ltb_spec k (Z.of_nat (List.length b))); lia. }
  rewrite Hsnd. apply firstn_skipn.
Qed.

(** With a positive index inside the buffer, [slice] is [firstn] and
    [skipn]. *)
Lemma slice_prefix (b : Buffer.t) (n : Z) :
  0 < n < Buffer.length b ->
  Buffer.slice b 0 (Some n) = firstn (Z.to_nat n) b.
Proof.
  intros Hn. unfold Buffer.slice, Buffer.adjustOffset. simpl (0 =? 0).
  cbv iota.
  destruct (Z.eqb_spec n 0); [lia|].
  destruct (Z.ltb_spec n 0); [lia|].
  destruct (Z.ltb_spec n (Buffer.length b)); [|lia].
  destruct (Z.ltb_spec 0 n); [|lia].
  simpl. now rewrite Z.sub_0_r.
Qed.

Lemma slice_suffix (b : Buffer.t) (n : Z) :
  0 < n < Buffer.length b ->
  Buffer.slice b n None = skipn (Z.to_nat n) b.
Proof.
  intros Hn. unfold Buffer.slice, Buffer.adjustOffset.
  destruct (Z.eqb_spec n 0); [lia|].
  destruct (Z.ltb_spec n 0); [lia|].
  destruct (Z.ltb_spec n (Buffer.length b)); [|lia].
  apply firstn_all2. rewrite length_skipn.
  destruct (Z.ltb_spec n (Buffer.length b)); unfold Buffer.length in *; lia.
Qed.

Lemma slice_prefix_length (b : Buffer.t) (n : Z) :
  0 < n < Buffer.length b ->
  Buffer.length (Buffer.slice b 0 (Some n)) = n.
Proof.
  intros Hn. rewrite slice_prefix by assumption.
  unfold Buffer.length in *. rewrite length_firstn. lia.
Qed.

Lemma slice_suffix_length (b : Buffer.t) (n : Z) :
  0 < n < Buffer.length b ->
  Buffer.length (Buffer.slice b n None) = Buffer.length b - n.
Proof.
  intros Hn. rewrite slice_suffix by assumption.
  unfold Buffer.length in *. rewrite length_skipn. lia.
Qed.

(** ** The advance routine, case by case *)

Ltac open_world w :=
  destruct w as [[?bs ?bt ?ov ?cv ?pb ?pc] ?d ?ls]; simpl in *; subst.

Ltac unfold_methods :=
  unfold _maybeProcessPendingWrite, _finishPendingWrite, scheduleRetry,
    callWrite, handleSend, after, clearPending, installPending,
    bufferSpaceAvailable,
    tryCatch, bind, gets, modify, perform, throw, ret, quiet,
    set_pendingWriteBuffer, set_pendingWriteCallback; simpl.

Section AdvanceCases.

Variable k : CallbackBody.
Variable handle : Handle.

Lemma finish_spec (error : option Error) (w : World) (cb : WriteCallback) :
  pendingWriteCallback (this w) = Some cb ->
  _finishPendingWrite k error w = callWrite k cb error (clearPending w).
Proof.
  intros Hcb. open_world w. unfold_methods.
  now destruct (k cb error _) as [[v|e] w' tr].
Qed.

Lemma advance_idle (w : World) :
  pendingWriteCallback (this w) = None ->
  _maybeProcessPendingWrite k handle w = mkOutcome (Normal tt) w [].
Proof. intros Hcb. open_world w. reflexivity. Qed.

Lemma advance_closed (w : World) (cb : WriteCallback) :
  pendingWriteCallback (this w) = Some cb ->
  readyState handle = closedStateValue (this w) ->
  _maybeProcessPendingWrite k handle w =
    callWrite k cb (Some (newError "not connected")) (clearPending w).
Proof.
  intros Hcb Hrs. open_world w. unfold_methods.
  rewrite strictEq_refl. simpl.
  now destruct (k cb _ _) as [[v|e] w' tr].
Qed.

Lemma advance_waiting (w : World) (cb : WriteCallback) :
  pendingWriteCallback (this w) = Some cb ->
  readyState handle <> closedStateValue (this w) ->
  readyState handle <> openStateValue (this w) ->
  _maybeProcessPendingWrite k handle w = mkOutcome (Normal tt) w [].
Proof.
  intros Hcb Hc Ho. open_world w. unfold_methods.
  apply strictEq_false_iff in Hc, Ho. now rewrite Hc, Ho.
Qed.

Lemma advance_no_room (w : World) (cb : WriteCallback) :
  pendingWriteCallback (this w) = Some cb ->
  readyState handle <> closedStateValue (this w) ->
  readyState handle = openStateValue (this w) ->
  bufferSpaceAvailable w handle = 0 ->
  _maybeProcessPendingWrite k handle w =
    mkOutcome (Normal tt) w [SetTimeout (bufferTimeout (this w))].
Proof.
  intros Hcb Hc Ho Hroom. open_world w. unfold_methods.
  apply strictEq_false_iff in Hc. rewrite Hc, strictEq_refl. simpl.
  unfold bufferSpaceAvailable in Hroom. simpl in Hroom.
  now rewrite Hroom.
Qed.

Lemma advance_partial (w : World) (cb : WriteCallback) (buffer : Buffer.t) :
  pendingWriteCallback (this w) = Some cb ->
  pendingWriteBuffer (this w) = Some buffer ->
  readyState handle <> closedStateValue (this w) ->
  readyState handle = openStateValue (this w) ->
  bufferSpaceAvailable w handle <> 0 ->
  bufferSpaceAvailable w handle < Buffer.length buffer ->
  send handle (Buffer.slice buffer 0 (Some (bufferSpaceAvailable w handle)))
    = None ->
  _maybeProcessPendingWrite k handle w =
    mkOutcome (Normal tt)
      (set_pendingWriteBuffer
         (Some (Buffer.slice buffer (bufferSpaceAvailable w handle) None)) w)
      [Send (Buffer.slice buffer 0 (Some (bufferSpaceAvailable w handle)));
       SetTimeout (bufferTimeout (this w))].
Proof.
  intros Hcb Hb Hc Ho Hnz Hlt Hsend. open_world w.
  unfold bufferSpaceAvailable in *. simpl in *. unfold_methods.
  apply strictEq_false_iff in Hc. rewrite Hc, strictEq_refl. simpl.
  apply Z.eqb_neq in Hnz. rewrite Hnz. simpl.
  apply Z.ltb_lt in Hlt. rewrite Hlt. simpl. now rewrite Hsend.
Qed.

Lemma advance_whole (w : World) (cb : WriteCallback) (buffer : Buffer.t) :
  pendingWriteCallback (this w) = Some cb ->
  pendingWriteBuffer (this w) = Some buffer ->
  readyState handle <> closedStateValue (this w) ->
  readyState handle = openStateValue (this w) ->
  bufferSpaceAvailable w handle <> 0 ->
  Buffer.length buffer <= bufferSpaceAvailable w handle ->
  send handle buffer = None ->
  _maybeProcessPendingWrite k handle w =
    after [Send buffer] (callWrite k cb None (clearPending w)).
Proof.
  intros Hcb Hb Hc Ho Hnz Hle Hsend. open_world w.
  unfold bufferSpaceAvailable in *. simpl in *. unfold_methods.
  apply strictEq_false_iff in Hc. rewrite Hc, strictEq_refl. simpl.
  apply Z.eqb_neq in Hnz. rewrite Hnz. simpl.
  apply Z.ltb_ge in Hle. rewrite Hle. simpl. rewrite Hsend. simpl.
  now destruct (k cb _ _) as [[v|e] w' tr].
Qed.

Lemma advance_send_raises (w : World) (cb : WriteCallback)
    (buffer : Buffer.t) (e : Error) :
  pendingWriteCallback (this w) = Some cb ->
  pendingWriteBuffer (this w) = Some buffer ->
  readyState handle <> closedStateValue (this w) ->
  readyState handle = openStateValue (this w) ->
  bufferSpaceAvailable w handle <> 0 ->
  send handle (chunkToSend handle w buffer) = Some e ->
  _maybeProcessPendingWrite k handle w =
    after [Send (chunkToSend handle w buffer)]
      (callWrite k cb (Some e) (clearPending w)).
Proof.
  intros Hcb Hb Hc Ho Hnz Hsend. open_world w.
  unfold chunkToSend, bufferSpaceAvailable in *. simpl in *. unfold_methods.
  apply strictEq_false_iff in Hc. rewrite Hc, strictEq_refl. simpl.
  apply Z.eqb_neq in Hnz. rewrite Hnz. simpl.
  destruct (bs - bufferedAmount handle <? Buffer.length buffer);
    simpl; rewrite Hsend; simpl;
    destruct (k cb _ _) as [[[]|e'] w' tr]; simpl;
    rewrite ?app_nil_r; reflexivity.
Qed.

End AdvanceCases.

Lemma chunkToSend_partial handle w buffer :
  bufferSpaceAvailable w handle < Buffer.length buffer ->
  chunkToSend handle w buffer =
    Buffer.slice buffer 0 (Some (bufferSpaceAvailable w handle)).
Proof.
  intros H. unfold chunkToSend. apply Z.ltb_lt in H. now rewrite H.
Qed.

Lemma chunkToSend_whole handle w buffer :
  Buffer.length buffer <= bufferSpaceAvailable w handle ->
  chunkToSend handle w buffer = buffer.
Proof.
  intros H. unfold chunkToSend. apply Z.ltb_ge in H. now rewrite H.
Qed.

Lemma callWrite_quiet cb error w :
  callWrite quiet cb error w = mkOutcome (Normal tt) w [CallWrite cb error].
Proof. reflexivity. Qed.

Lemma advance_quiet_cases (handle : Handle) (w : World) :
  Advanced handle w (_maybeProcessPendingWrite quiet handle w).
Proof.
  destruct (pendingWriteCallback (this w)) as [cb|] eqn:Hcb.
  2:{ rewrite advance_idle by assumption. now constructor. }
  destruct (strictEq (readyState handle) (closedStateValue (this w))) eqn:Hc.
  { apply strictEq_true_iff in Hc.
    rewrite (advance_closed quiet handle w cb) by assumption.
    rewrite callWrite_quiet. now constructor. }
  apply strictEq_false_iff in Hc.
  destruct (strictEq (readyState handle) (openStateValue (this w))) eqn:Ho.
  2:{ apply strictEq_false_iff in Ho.
      rewrite (advance_waiting quiet handle w cb) by assumption.
      now apply adv_waiting with cb. }
  apply strictEq_true_iff in Ho.
  destruct (Z.eq_dec (bufferSpaceAvailable w handle) 0) as [Hz|Hnz].
  { rewrite (advance_no_room quiet handle w cb) by assumption.
    now apply adv_no_room with cb. }
  destruct (pendingWriteBuffer (this w)) as [buffer|] eqn:Hb.
  2:{ replace (_maybeProcessPendingWrite quiet handle w)
        with (mkOutcome (A:=unit)
                (Throw (typeError "cannot read property length of null"))
                w []).
      - now apply adv_half_set with cb.
      - open_world w. unfold bufferSpaceAvailable in *. simpl in *.
        unfold_methods. apply strictEq_false_iff in Hc.
        rewrite Hc, strictEq_refl. simpl.
        apply Z.eqb_neq in Hnz. now rewrite Hnz. }
  destruct (send handle (chunkToSend handle w buffer)) as [e|] eqn:Hsend.
  { rewrite (advance_send_raises quiet handle w cb buffer e) by assumption.
    rewrite callWrite_quiet. now apply adv_send_raises. }
  destruct (Z.lt_ge_cases (bufferSpaceAvailable w handle)
              (Buffer.length buffer)) as [Hlt|Hge].
  - rewrite (advance_partial quiet handle w cb buffer); try assumption.
    + rewrite <- chunkToSend_partial by assumption. now apply adv_partial with cb.
    + now rewrite <- chunkToSend_partial.
  - rewrite chunkToSend_whole in Hsend by assumption.
    rewrite (advance_whole quiet handle w cb buffer) by assumption.
    rewrite callWrite_quiet. now apply adv_whole.
Qed.

(** ** What every call preserves *)

Lemma _destroy_spec (error : option Error) (w : World) :
  _destroy error (fun e => perform (CallDestroy e)) w =
    mkOutcome (Normal tt) (set_listeners (afterRemoval (listeners w)) w)
      (destroyTrace error).
Proof. reflexivity. Qed.

Lemma destroy_first (error : option Error) (w : World) :
  destroyed w = false ->
  destroy error w =
    mkOutcome (Normal tt)
      (set_listeners (afterRemoval (listeners w)) (set_destroyed true w))
      (destroyTrace error).
Proof. intros H. unfold destroy. rewrite bind_gets, H. reflexivity. Qed.

Lemma destroy_again (error : option Error) (w : World) :
  destroyed w = true ->
  destroy error w = mkOutcome (Normal tt) w [].
Proof. intros H. unfold destroy. rewrite bind_gets, H. reflexivity. Qed.

Lemma writev_spec k handle chunks callback w :
  _writev k handle chunks callback w =
    _maybeProcessPendingWrite k handle
      (installPending (submitted chunks) callback w).
Proof.
  unfold _writev, bind, modify, installPending, submitted. simpl.
  now destruct (_maybeProcessPendingWrite k handle _).
Qed.

Lemma finish_none k error w :
  pendingWriteCallback (this w) = None ->
  _finishPendingWrite k error w =
    mkOutcome (Throw (typeError "cb is not a function")) (clearPending w) [].
Proof. intros H. open_world w. reflexivity. Qed.

(** Destructs the shape of one run of the advance routine. *)
Ltac advance_cases handle w :=
  let o := fresh "o" in
  let E := fresh "E" in
  let H := fresh "H" in
  remember (_maybeProcessPendingWrite quiet handle w) as o eqn:E;
  pose proof (advance_quiet_cases handle w) as H;
  rewrite <- E in H; clear E; destruct H; simpl.

(** Destructs [destroy] on the flag. *)
Ltac destroy_cases error w :=
  let D := fresh "D" in
  destruct (destroyed w) eqn:D;
  [ rewrite (destroy_again error w) by assumption
  | rewrite (destroy_first error w) by assumption ]; simpl.

(** A property of worlds that the field updates of the class preserve is
    preserved by every call; [okCallback] restricts the callbacks that
    may be handed in. *)
Section Preservation.

Variable P : World -> Prop.
Variable okCallback : WriteCallback -> Prop.
Hypothesis P_install :
  forall w buffer cb, okCallback cb -> P w -> P (installPending buffer cb w).
Hypothesis P_clear : forall w, P w -> P (clearPending w).
Hypothesis P_rest :
  forall w cb buffer rest,
    P w ->
    pendingWriteCallback (this w) = Some cb ->
    pendingWriteBuffer (this w) = Some buffer ->
    P (set_pendingWriteBuffer (Some rest) w).
Hypothesis P_destroy :
  forall w,
    P w -> destroyed w = false ->
    P (set_listeners (afterRemoval (listeners w)) (set_destroyed true w)).

Lemma advance_preserves handle w :
  P w -> P (world (_maybeProcessPendingWrite quiet handle w)).
Proof.
  intros HP. advance_cases handle w; eauto.
Qed.

Lemma destroy_preserves error w : P w -> P (world (destroy error w)).
Proof. intros HP. destroy_cases error w; auto. Qed.

Lemma advance_destroy_preserves handle error w :
  P w ->
  P (world ((_maybeProcessPendingWrite quiet handle ;; destroy error) w)).
Proof.
  intros HP. rewrite bind_unfold.
  pose proof (advance_preserves handle w HP) as HP'.
  destruct (_maybeProcessPendingWrite quiet handle w) as [[[]|e] w' tr];
    simpl in *; auto.
  now apply destroy_preserves.
Qed.

Lemma onOpen_preserves handle w :
  P w -> P (world (_onOpen quiet handle w)).
Proof.
  intros HP. unfold _onOpen. rewrite bind_perform. simpl.
  now apply advance_preserves.
Qed.

Lemma step_preserves handle op w :
  (forall cb, submits op cb -> okCallback cb) ->
  P w -> P (world (step quiet handle op w)).
Proof.
  intros Hok HP.
  destruct op as [c enc cb|chunks cb|size|error|ev| | | |error]; simpl.
  - unfold _write. rewrite writev_spec. apply advance_preserves.
    apply P_install; auto. now apply Hok.
  - rewrite writev_spec. apply advance_preserves.
    apply P_install; auto. now apply Hok.
  - exact HP.
  - now apply destroy_preserves.
  - destruct ev as [| |event|data]; unfold dispatch; rewrite bind_gets;
      match goal with |- context [registered ?r w] =>
        destruct (registered r w) end; simpl; auto.
    + now apply onOpen_preserves.
    + now apply advance_destroy_preserves.
    + now apply advance_destroy_preserves.
  - now apply onOpen_preserves.
  - now apply advance_destroy_preserves.
  - now apply advance_preserves.
  - destruct (pendingWriteCallback (this w)) as [cb|] eqn:Hcb.
    + rewrite (finish_spec quiet error w cb) by assumption. simpl. auto.
    + rewrite finish_none by assumption. simpl. auto.
Qed.

End Preservation.

Lemma step_config handle op w : config (world (step quiet handle op w)) = config w.
Proof.
  apply (step_preserves (fun w' => config w' = config w) (fun _ => True));
    auto.
Qed.

Lemma step_paired handle op w :
  paired w -> paired (world (step quiet handle op w)).
Proof.
  apply (step_preserves paired (fun _ => True)); unfold paired; simpl;
    try tauto.
  - intros; split; discriminate.
  - intros w0 cb buffer rest Hp Hcb Hb. rewrite Hcb. split; discriminate.
Qed.

Lemma step_wired handle op w :
  wired w -> wired (world (step quiet handle op w)).
Proof.
  apply (step_preserves wired (fun _ => True)); unfold wired; simpl;
    try tauto.
  intros w0 [[_ Hl]|[Hd _]] Hd'; [|congruence].
  right. rewrite Hl. split; reflexivity.
Qed.

Lemma constructor_world kind handle options :
  world (constructor kind handle options) =
    mkWorld
      (mkRTCStream
         match opt_bufferSize options with Some v => v | None => 524288 end
         match opt_bufferTimeout options with Some v => v | None => 50 end
         match kind with
         | WebSocket => WebSocket_OPEN
         | RTCDataChannel => StringValue "open"
         end
         match kind with
         | WebSocket => WebSocket_CLOSED
         | RTCDataChannel => StringValue "closed"
         end
         None None)
      false allListeners.
Proof.
  unfold constructor.
  destruct kind; simpl;
    match goal with |- context [strictEq ?a ?b] => destruct (strictEq a b) end;
    simpl; try reflexivity;
    match goal with |- context [strictEq ?a ?b] => destruct (strictEq a b) end;
    reflexivity.
Qed.

Lemma reachable_paired w : Reachable w -> paired w.
Proof.
  induction 1 as [kind handle options|w handle op _ IH].
  - rewrite constructor_world. unfold paired. simpl. tauto.
  - now apply step_paired.
Qed.

Lemma reachable_wired w : Reachable w -> wired w.
Proof.
  induction 1 as [kind handle options|w handle op _ IH].
  - rewrite constructor_world. left. split; reflexivity.
  - now apply step_wired.
Qed.

(** The two sentinels of a constructed adapter differ. *)
Lemma reachable_sentinels w :
  Reachable w -> openStateValue (this w) <> closedStateValue (this w).
Proof.
  induction 1 as [kind handle options|w handle op _ IH].
  - rewrite constructor_world. destruct kind; simpl; discriminate.
  - pose proof (step_config handle op w) as Hc. unfold config in Hc.
    congruence.
Qed.

Lemma reachable_runOps ops w :
  Reachable w -> Reachable (fst (runOps quiet ops w)).
Proof.
  revert w. induction ops as [|[handle op] ops IH]; intros w Hw; simpl.
  - exact Hw.
  - pose proof (IH _ (reachable_step w handle op Hw)) as IH'.
    destruct (runOps quiet ops (world (step quiet handle op w))).
    exact IH'.
Qed.

(** ** What a call may do *)

Lemma advance_allowed handle op w :
  Forall (allowed handle op w)
    (trace (_maybeProcessPendingWrite quiet handle w)).
Proof.
  advance_cases handle w; repeat constructor; simpl; auto.
Qed.

Lemma advance_installed_allowed handle op w buffer cb :
  submits op cb ->
  Forall (allowed handle op w)
    (trace (_maybeProcessPendingWrite quiet handle (installPending buffer cb w))).
Proof.
  intros Hs.
  pose proof (advance_allowed handle op (installPending buffer cb w)) as H.
  eapply Forall_impl; [|exact H].
  intros [] He; simpl in *; auto.
  destruct He as [He|He]; auto. inversion He; subst. now right.
Qed.

Lemma destroy_allowed handle op error w :
  Forall (allowed handle op w) (trace (destroy error w)).
Proof.
  destroy_cases error w; repeat constructor; assumption.
Qed.

Lemma advance_destroyed handle w :
  destroyed (world (_maybeProcessPendingWrite quiet handle w)) = destroyed w.
Proof.
  apply (advance_preserves (fun w' => destroyed w' = destroyed w)); auto.
Qed.

Lemma advance_then_destroy_allowed handle op error w :
  Forall (allowed handle op w)
    (trace ((_maybeProcessPendingWrite quiet handle ;; destroy error) w)).
Proof.
  rewrite bind_unfold.
  pose proof (advance_allowed handle op w) as Ha.
  pose proof (advance_destroyed handle w) as Hd.
  destruct (_maybeProcessPendingWrite quiet handle w) as [[[]|e] w' tr];
    simpl in *; auto.
  apply Forall_app. split; auto.
  destroy_cases error w'; repeat constructor; congruence.
Qed.

Lemma onOpen_allowed handle op w :
  Forall (allowed handle op w) (trace (_onOpen quiet handle w)).
Proof.
  unfold _onOpen. rewrite bind_perform. simpl. constructor; [exact I|].
  apply advance_allowed.
Qed.

Lemma step_allowed handle op w :
  Forall (allowed handle op w) (trace (step quiet handle op w)).
Proof.
  destruct op as [c enc cb|chunks cb|size|error|ev| | | |error]; simpl.
  - unfold _write. rewrite writev_spec.
    now apply advance_installed_allowed.
  - rewrite writev_spec. now apply advance_installed_allowed.
  - constructor.
  - apply destroy_allowed.
  - destruct ev as [| |event|data]; unfold dispatch; rewrite bind_gets;
      match goal with |- context [registered ?r w] =>
        destruct (registered r w) end; simpl; try constructor.
    + apply onOpen_allowed.
    + apply advance_then_destroy_allowed.
    + apply advance_then_destroy_allowed.
    + exact I.
    + constructor.
  - apply onOpen_allowed.
  - apply advance_then_destroy_allowed.
  - apply advance_allowed.
  - destruct (pendingWriteCallback (this w)) as [cb|] eqn:Hcb.
    + rewrite (finish_spec quiet error w cb) by assumption.
      rewrite callWrite_quiet. simpl.
      constructor; [now left | constructor].
    + rewrite finish_none by assumption. constructor.
Qed.

(** ** Retries until the write completes *)

Lemma accepting_config w w' handle :
  config w = config w' -> accepting w handle -> accepting w' handle.
Proof.
  unfold config, accepting, bufferSpaceAvailable. intros Hc (H1 & H2 & H3).
  injection Hc as Hbs Hbt Ho Hcl.
  repeat split; [congruence | lia | assumption].
Qed.

Lemma settle_unarmed fuel env t (o : Outcome unit) :
  armed (trace o) = false -> settle fuel env t o = (o, t).
Proof. intros H. destruct fuel; simpl; now rewrite H. Qed.

Lemma settle_armed fuel env t (o : Outcome unit) :
  armed (trace o) = true ->
  settle (S fuel) env t o =
    let '(o', t') :=
      settle fuel env (S t)
        (_maybeProcessPendingWrite quiet (env t) (world o)) in
    (mkOutcome (completion o') (world o') (trace o ++ trace o'), t').
Proof. intros H. simpl. now rewrite H. Qed.

Lemma armed_app tr1 tr2 : armed (tr1 ++ tr2) = armed tr1 || armed tr2.
Proof. apply existsb_app. Qed.

Lemma sentBytes_app tr1 tr2 :
  sentBytes (tr1 ++ tr2) = sentBytes tr1 ++ sentBytes tr2.
Proof.
  induction tr1 as [|[] tr1 IH]; simpl; auto.
  now rewrite IH, app_assoc.
Qed.

Lemma writeCalls_app tr1 tr2 :
  writeCalls (tr1 ++ tr2) = writeCalls tr1 ++ writeCalls tr2.
Proof.
  induction tr1 as [|[] tr1 IH]; simpl; auto. now rewrite IH.
Qed.

Lemma sendCalls_app tr1 tr2 :
  sendCalls (tr1 ++ tr2) = sendCalls tr1 ++ sendCalls tr2.
Proof.
  induction tr1 as [|[] tr1 IH]; simpl; auto. now rewrite IH.
Qed.

(** Effects in front that arm no timer do not change the retries. *)
Lemma settle_after fuel env t tr (o : Outcome unit) :
  armed tr = false ->
  settle fuel env t (after tr o) =
    (after tr (fst (settle fuel env t o)), snd (settle fuel env t o)).
Proof.
  intros Htr. destruct fuel; simpl; rewrite armed_app, Htr; simpl.
  - now destruct (armed (trace o)).
  - destruct (armed (trace o)); [|reflexivity].
    destruct (settle fuel env (S t) _) as [o' t']. simpl.
    unfold after. simpl. now rewrite app_assoc.
Qed.

(** Under an accepting handle a pending write of [n] bytes completes
    within [n] retries; what was sent is the pending buffer. *)
Lemma settle_completes env fuel :
  forall buffer cb w t,
    openStateValue (this w) <> closedStateValue (this w) ->
    (forall n, accepting w (env n)) ->
    pendingWriteBuffer (this w) = Some buffer ->
    pendingWriteCallback (this w) = Some cb ->
    (List.length buffer <= fuel)%nat ->
    exists tr t',
      settle fuel env (S t) (_maybeProcessPendingWrite quiet (env t) w) =
        (mkOutcome (Normal tt) (clearPending w) tr, t') /\
      sentBytes tr = buffer /\
      writeCalls tr = [(cb, None)].
Proof.
  induction fuel as [|fuel IH]; intros buffer cb w t Hsent Henv Hb Hcb Hlen.
  - destruct buffer; [|simpl in Hlen; lia].
    destruct (Henv t) as (Ho & Hroom & Hsend).
    rewrite (advance_whole quiet (env t) w cb []); auto; try congruence;
      try lia.
    + exists [Send []; CallWrite cb None], (S t).
      rewrite callWrite_quiet. repeat split.
    + unfold Buffer.length. simpl. lia.
  - destruct (Henv t) as (Ho & Hroom & Hsend).
    destruct (Z.lt_ge_cases (bufferSpaceAvailable w (env t))
                (Buffer.length buffer)) as [Hlt|Hge].
    + rewrite (advance_partial quiet (env t) w cb buffer); auto;
        try congruence; try lia.
      rewrite settle_armed by reflexivity. simpl world.
      set (room := bufferSpaceAvailable w (env t)) in *.
      set (w1 := set_pendingWriteBuffer
                   (Some (Buffer.slice buffer room None)) w).
      assert (Henv1 : forall n, accepting w1 (env n)).
      { intros n. now apply (accepting_config w). }
      assert (Hlen1 : (List.length (Buffer.slice buffer room None) <= fuel)%nat).
      { pose proof (slice_suffix_length buffer room (conj Hroom Hlt)) as Hl.
        unfold Buffer.length in *. lia. }
      destruct (IH (Buffer.slice buffer room None) cb w1 (S t)
                  Hsent Henv1 eq_refl Hcb Hlen1)
        as (tr & t' & Hs & Hbytes & Hcalls).
      rewrite Hs.
      exists ([Send (Buffer.slice buffer 0 (Some room));
               SetTimeout (bufferTimeout (this w))] ++ tr), t'.
      simpl. repeat split.
      * now rewrite Hbytes, slice_split.
      * exact Hcalls.
    + rewrite (advance_whole quiet (env t) w cb buffer); auto;
        try congruence; try lia.
      rewrite callWrite_quiet. unfold after. simpl.
      exists [Send buffer; CallWrite cb None], (S t).
      simpl. now rewrite app_nil_r.
Qed.

(** ** Sequential writes *)

Lemma writeCalls_success tr cb :
  writeCalls tr = [(cb, None)] -> existsb isSuccess tr = true.
Proof.
  induction tr as [|e tr IH]; simpl; [discriminate|].
  destruct e; simpl; auto.
  intros H. injection H as _ He _. now subst.
Qed.

Lemma writeOne_completes env fuel chunks cb w t :
  openStateValue (this w) <> closedStateValue (this w) ->
  (forall n, accepting w (env n)) ->
  (List.length (submitted chunks) <= fuel)%nat ->
  exists tr t',
    writeOne fuel env t chunks cb w =
      (mkOutcome (Normal tt) (clearPending w) tr, t') /\
    sentBytes tr = submitted chunks /\
    writeCalls tr = [(cb, None)].
Proof.
  intros Hsent Henv Hlen. unfold writeOne. rewrite writev_spec.
  set (w1 := installPending (submitted chunks) cb w).
  assert (Henv1 : forall n, accepting w1 (env n)).
  { intros n. now apply (accepting_config w). }
  destruct (settle_completes env fuel (submitted chunks) cb w1 t
              Hsent Henv1 eq_refl eq_refl Hlen)
    as (tr & t' & Hs & Hbytes & Hcalls).
  exists tr, t'. now rewrite Hs.
Qed.

Lemma writeAll_completes env fuel writes :
  forall w t,
    openStateValue (this w) <> closedStateValue (this w) ->
    (forall n, accepting w (env n)) ->
    (forall wr, In wr writes ->
                (List.length (submitted (fst wr)) <= fuel)%nat) ->
    sentBytes (snd (fst (writeAll fuel env t writes w))) =
      Buffer.concat (map (fun wr => submitted (fst wr)) writes) /\
    writeCalls (snd (fst (writeAll fuel env t writes w))) =
      map (fun wr => (snd wr, None)) writes.
Proof.
  induction writes as [|[chunks cb] writes IH]; intros w t Hsent Henv Hlen.
  - split; reflexivity.
  - simpl writeAll.
    destruct (writeOne_completes env fuel chunks cb w t Hsent Henv)
      as (tr & t1 & Hone & Hbytes & Hcalls).
    { apply (Hlen (chunks, cb)). now left. }
    rewrite Hone. simpl trace. simpl world.
    rewrite (writeCalls_success tr cb Hcalls).
    assert (Henv1 : forall n, accepting (clearPending w) (env n)).
    { intros n. now apply (accepting_config w). }
    destruct (IH (clearPending w) t1 Hsent Henv1) as (IHb & IHc).
    { intros wr Hin. apply Hlen. now right. }
    destruct (writeAll fuel env t1 writes (clearPending w)) as [[w2 tr2] t2].
    simpl in *. rewrite sentBytes_app, writeCalls_app, Hbytes, Hcalls, IHb, IHc.
    split; reflexivity.
Qed.

(** C1.  Writes submitted one after the other to a reachable adapter
    whose handle, at every attempt of the advance routine, is in the open
    state, has positive headroom and does not raise from [send]: the
    chunks passed to [send], concatenated in call order, are the submitted
    buffers concatenated in submission order, and every write's callback
    is called once, without error, in submission order. *)
Theorem C1_sends_concatenate_writes :
  forall (w : World) (env : nat -> Handle) (fuel t : nat)
         (writes : list (list ChunkItem * WriteCallback)),
    Reachable w ->
    (forall n, accepting w (env n)) ->
    (forall wr, In wr writes ->
                (List.length (submitted (fst wr)) <= fuel)%nat) ->
    sentBytes (snd (fst (writeAll fuel env t writes w))) =
      Buffer.concat (map (fun wr => submitted (fst wr)) writes) /\
    writeCalls (snd (fst (writeAll fuel env t writes w))) =
      map (fun wr => (snd wr, None)) writes.
Proof.
  intros w env fuel t writes Hw. apply writeAll_completes.
  now apply reachable_sentinels.
Qed.

(** ** Reachability of the example states *)

Lemma freshWorld_reachable size : Reachable (freshWorld size).
Proof. apply reachable_new. Qed.

Lemma queuedWorld_reachable size data cb : Reachable (queuedWorld size data cb).
Proof. apply reachable_step, freshWorld_reachable. Qed.

Lemma openSocket_accepting size data cb buffered :
  buffered < size -> accepting (queuedWorld size data cb) (openSocket buffered).
Proof.
  intros H. unfold accepting, bufferSpaceAvailable. simpl.
  repeat split; auto. lia.
Qed.

Lemma C1_witness :
  sentBytes
    (snd (fst (writeAll 15 (fun _ => openSocket 0) 0 exampleWrites
                 (freshWorld 10)))) =
    Buffer.concat (map (fun wr => submitted (fst wr)) exampleWrites) /\
  writeCalls
    (snd (fst (writeAll 15 (fun _ => openSocket 0) 0 exampleWrites
                 (freshWorld 10)))) =
    map (fun wr => (snd wr, None)) exampleWrites.
Proof.
  apply C1_sends_concatenate_writes.
  - apply freshWorld_reachable.
  - intros n. unfold accepting, bufferSpaceAvailable. simpl.
    repeat split; auto.
  - intros wr [<-|[<-|[]]]; vm_compute; lia.
Defined.

(** The scenario of the specification: [bufferSize = 10], the socket open
    with nothing buffered, one write of 15 bytes: two sends, of 10 and of
    5 bytes, then the callback without error. *)
Example scenario_two_sends :
  trace (fst (writeOne 15 (fun _ => openSocket 0) 0
                [mkChunkItem (BufferChunk (bytes fifteen)) "buffer"] 1%nat
                (freshWorld 10))) =
    [Send (bytes [1; 2; 3; 4; 5; 6; 7; 8; 9; 10]);
     SetTimeout 50;
     Send (bytes [11; 12; 13; 14; 15]);
     CallWrite 1%nat None].
Proof. reflexivity. Qed.

(** A socket already closed when the adapter is constructed: the
    constructor queues [_onClose], which destroys the stream with
    "connection closed"; nothing is sent. *)
Example scenario_closed_at_construction :
  trace (constructor WebSocket closedSocket (mkOptions None None)) =
    [SetBinaryType "arraybuffer";
     AddEventListener EvOpen OnOpen;
     AddEventListener EvClose OnClose;
     AddEventListener EvError OnError;
     AddEventListener EvMessage OnMessage;
     NextTick OnClose] /\
  trace (step quiet closedSocket OpTickOnClose
           (world (constructor WebSocket closedSocket (mkOptions None None))))
    = destroyTrace (Some (newError "connection closed")).
Proof. split; reflexivity. Qed.

(** A write callback that destroys the stream when it is given an error,
    as the writable side of a stream may do: the stream is then destroyed
    with the error of the write, and the [destroy] call of [_onClose]
    that follows finds it destroyed. *)
Example scenario_destroying_callback :
  trace (_onClose
           (fun _ error =>
              match error with
              | Some e => destroy (Some e)
              | None => ret tt
              end)
           closedSocket (queuedWorld 10 [1; 2; 3] 1%nat)) =
    CallWrite 1%nat (Some (newError "not connected"))
    :: destroyTrace (Some (newError "not connected")).
Proof. reflexivity. Qed.

Example utf8_two_bytes : utf8ToBytes [104; 233] = bytes [104; 195; 169].
Proof. reflexivity. Qed.

Example utf8_surrogate_pair :
  utf8ToBytes [55357; 56832] = bytes [240; 159; 152; 128].
Proof. reflexivity. Qed.

Example utf8_lone_surrogate :
  utf8ToBytes [55357; 97] = bytes [239; 191; 189; 97].
Proof. reflexivity. Qed.

(** ** Partial sends *)

(** With [bufferSize = 2] and 3 bytes already buffered by the socket the
    headroom is -1: non-zero and smaller than the 3 pending bytes.  The
    step sends the first two bytes, not a prefix of the size of the
    headroom. *)
Lemma C2_counterexample :
  pendingWriteBuffer (this (queuedWorld 2 [1; 2; 3] 1%nat))
    = Some (bytes [1; 2; 3]) /\
  0 <= bufferedAmount (openSocket 3) /\
  bufferSpaceAvailable (queuedWorld 2 [1; 2; 3] 1%nat) (openSocket 3) = -1 /\
  -1 <> 0 /\
  -1 < Buffer.length (bytes [1; 2; 3]) /\
  trace (_maybeProcessPendingWrite quiet (openSocket 3)
           (queuedWorld 2 [1; 2; 3] 1%nat)) =
    [Send (bytes [1; 2]); SetTimeout 50] /\
  ~ sendsHeadroomPrefix (queuedWorld 2 [1; 2; 3] 1%nat) (openSocket 3).
Proof.
  repeat split; try reflexivity; try discriminate.
  intros (buffer & cb & chunk & rest & _ & _ & _ & Hlen & _).
  pose proof (length_nonneg chunk) as Hpos.
  rewrite Hlen in Hpos. vm_compute in Hpos. now apply Hpos.
Qed.

(** C2 (amended).  A pending write on a reachable adapter, the handle open
    and not raising from [send], the headroom positive and smaller than
    the pending buffer: one step sends the prefix of the size of the
    headroom, keeps the suffix pending with the same callback and
    schedules a retry after [bufferTimeout]; the retries, as long as the
    handle accepts, send the rest, so that all sends together are the
    original buffer, and then call the callback without error. *)
Theorem C2_partial_send_then_rest :
  forall (w : World) (handle : Handle) (buffer : Buffer.t)
         (cb : WriteCallback),
    Reachable w ->
    pendingWriteBuffer (this w) = Some buffer ->
    pendingWriteCallback (this w) = Some cb ->
    readyState handle = openStateValue (this w) ->
    (forall c, send handle c = None) ->
    0 < bufferSpaceAvailable w handle < Buffer.length buffer ->
    let room := Z.to_nat (bufferSpaceAvailable w handle) in
    let o := _maybeProcessPendingWrite quiet handle w in
    sendsHeadroomPrefix w handle /\
    trace o = [Send (firstn room buffer); SetTimeout (bufferTimeout (this w))] /\
    pendingWriteBuffer (this (world o)) = Some (skipn room buffer) /\
    pendingWriteCallback (this (world o)) = Some cb /\
    forall (env : nat -> Handle) (fuel t : nat),
      (forall n, accepting w (env n)) ->
      (List.length buffer <= fuel)%nat ->
      sentBytes (trace (fst (settle fuel env t o))) = buffer /\
      writeCalls (trace (fst (settle fuel env t o))) = [(cb, None)] /\
      world (fst (settle fuel env t o)) = clearPending w.
Proof.
  intros w handle buffer cb Hw Hb Hcb Ho Hsend Hroom room o.
  pose proof (reachable_sentinels w Hw) as Hsent.
  assert (Ho' : o = mkOutcome (Normal tt)
                      (set_pendingWriteBuffer (Some (skipn room buffer)) w)
                      [Send (firstn room buffer);
                       SetTimeout (bufferTimeout (this w))]).
  { unfold o, room.
    rewrite (advance_partial quiet handle w cb buffer); auto;
      try congruence; try lia.
    now rewrite slice_prefix, slice_suffix. }
  assert (Hlen : Buffer.length (firstn room buffer)
                 = bufferSpaceAvailable w handle).
  { unfold room. rewrite <- slice_prefix by assumption.
    now apply slice_prefix_length. }
  split.
  { exists buffer, cb, (firstn room buffer), (skipn room buffer).
    fold o. rewrite Ho'. simpl.
    repeat split; auto. symmetry. apply firstn_skipn. }
  rewrite Ho'. split; [reflexivity|]. split; [reflexivity|].
  split; [exact Hcb|].
  intros env fuel t Henv Hfuel.
  assert (Hbig : (2 <= List.length buffer)%nat).
  { unfold Buffer.length in Hroom. lia. }
  destruct fuel as [|fuel]; [lia|].
  rewrite settle_armed by reflexivity. simpl world.
  set (w1 := set_pendingWriteBuffer (Some (skipn room buffer)) w).
  assert (Henv1 : forall n, accepting w1 (env n)).
  { intros n. now apply (accepting_config w). }
  assert (Hlen1 : (List.length (skipn room buffer) <= fuel)%nat).
  { rewrite length_skipn. unfold room. lia. }
  destruct (settle_completes env fuel (skipn room buffer) cb w1 t
              Hsent Henv1 eq_refl Hcb Hlen1)
    as (tr & t' & Hs & Hbytes & Hcalls).
  rewrite Hs. simpl. rewrite Hbytes, Hcalls, firstn_skipn.
  repeat split.
Qed.

Lemma C2_witness :
  sendsHeadroomPrefix (queuedWorld 10 fifteen 1%nat) (openSocket 4) /\
  sentBytes
    (trace (fst (settle 15 (fun _ => openSocket 0) 0
                   (_maybeProcessPendingWrite quiet (openSocket 4)
                      (queuedWorld 10 fifteen 1%nat))))) = bytes fifteen.
Proof.
  destruct (C2_partial_send_then_rest (queuedWorld 10 fifteen 1%nat)
              (openSocket 4) (bytes fifteen) 1%nat)
    as (Hprefix & _ & _ & _ & Hrest).
  - apply queuedWorld_reachable.
  - reflexivity.
  - reflexivity.
  - reflexivity.
  - reflexivity.
  - vm_compute. split; reflexivity.
  - split; [exact Hprefix|].
    apply (Hrest (fun _ => openSocket 0) 15%nat 0%nat).
    + intros n. apply openSocket_accepting. lia.
    + vm_compute. lia.
Defined.

(** ** Sequences of calls *)

(** An invariant of the state and a property of the effects that every
    admitted call maintains hold along every sequence of such calls. *)
Lemma runOps_maintains (P : World -> Prop) (T : Effect -> Prop)
    (admitted : Handle * Op -> Prop) :
  (forall handle op w,
      admitted (handle, op) -> P w ->
      P (world (step quiet handle op w)) /\
      Forall T (trace (step quiet handle op w))) ->
  forall ops w,
    Forall admitted ops -> P w ->
    P (fst (runOps quiet ops w)) /\ Forall T (snd (runOps quiet ops w)).
Proof.
  intros Hstep. induction ops as [|[handle op] ops IH]; intros w Hops HP.
  - split; [exact HP|constructor].
  - inversion Hops as [|? ? Hop Hrest]; subst. simpl.
    destruct (Hstep handle op w Hop HP) as [HP1 HT1].
    destruct (IH _ Hrest HP1) as [HP2 HT2].
    destruct (runOps quiet ops (world (step quiet handle op w))) as [w' tr].
    simpl in *. split; [exact HP2|]. apply Forall_app. now split.
Qed.

Lemma no_send_sendCalls tr :
  Forall (fun e => isSend e = false) tr -> sendCalls tr = [].
Proof.
  induction 1 as [|e tr He _ IH]; simpl; auto.
  destruct e; simpl in *; auto; discriminate.
Qed.

Lemma no_destroy_filter tr :
  Forall (fun e => isDestroyEffect e = false) tr ->
  filter isDestroyEffect tr = [].
Proof.
  induction 1 as [|e tr He _ IH]; simpl; auto. now rewrite He.
Qed.

(** No [send] as long as the handle is not in the open state. *)
Lemma runOps_no_send ops w :
  Forall (fun hop => readyState (fst hop) <> openStateValue (this w)) ops ->
  sendCalls (snd (runOps quiet ops w)) = [].
Proof.
  intros Hops. apply no_send_sendCalls.
  apply (runOps_maintains (fun w' => config w' = config w)
           (fun e => isSend e = false)
           (fun hop => readyState (fst hop) <> openStateValue (this w)));
    auto.
  intros handle op w0 Hrs Hc. split.
  - now rewrite step_config.
  - eapply Forall_impl; [|apply step_allowed].
    intros [] He; simpl in *; auto.
    unfold config in Hc. injection Hc as _ _ Ho _. congruence.
Qed.

(** Once destroyed, [_destroy] does not run again. *)
Lemma runOps_destroyed ops w :
  destroyed w = true ->
  filter isDestroyEffect (snd (runOps quiet ops w)) = [].
Proof.
  intros Hd. apply no_destroy_filter.
  apply (runOps_maintains (fun w' => destroyed w' = true)
           (fun e => isDestroyEffect e = false) (fun _ => True)); auto.
  - intros handle op w0 _ Hd0. split.
    + apply (step_preserves (fun w' => destroyed w' = true) (fun _ => True));
        auto.
    + eapply Forall_impl; [|apply step_allowed].
      intros [] He; simpl in *; auto; congruence.
  - apply Forall_forall. auto.
Qed.

(** A callback that is neither pending nor handed in is never called. *)
Lemma runOps_never_calls old ops w :
  pendingWriteCallback (this w) <> Some old ->
  Forall (fun hop => ~ submits (snd hop) old) ops ->
  ~ In old (map fst (writeCalls (snd (runOps quiet ops w)))).
Proof.
  intros Hp Hops.
  assert (H : Forall (fun e => forall err, e <> CallWrite old err)
                (snd (runOps quiet ops w))).
  { apply (runOps_maintains
             (fun w' => pendingWriteCallback (this w') <> Some old)
             (fun e => forall err, e <> CallWrite old err)
             (fun hop => ~ submits (snd hop) old)); auto.
    intros handle op w0 Hop Hp0. simpl in Hop. split.
    - apply (step_preserves
               (fun w' => pendingWriteCallback (this w') <> Some old)
               (fun cb => cb <> old)); simpl; auto; try discriminate.
      intros w1 buffer cb Hcb _ Heq. now injection Heq.
      intros cb Hs Heq. subst. contradiction.
    - eapply Forall_impl; [|apply step_allowed].
      intros e He err' Heq. subst e. simpl in He.
      destruct He; contradiction. }
  induction H as [|e tr He _ IH]; simpl; auto.
  destruct e; simpl; auto.
  intros [->|Hin]; [now apply (He err)|contradiction].
Qed.

(** ** Single calls *)

(** C3.  An outstanding write and the handle in the closed state: one run
    of the advance routine calls that write's callback exactly once, with
    a "not connected" error, clears both pending fields and does not call
    [send]. *)
Theorem C3_closed_fails_pending_write :
  forall (w : World) (handle : Handle) (buffer : Buffer.t)
         (cb : WriteCallback),
    pendingWriteBuffer (this w) = Some buffer ->
    pendingWriteCallback (this w) = Some cb ->
    readyState handle = closedStateValue (this w) ->
    let o := _maybeProcessPendingWrite quiet handle w in
    trace o = [CallWrite cb (Some (newError "not connected"))] /\
    writeCalls (trace o) = [(cb, Some (newError "not connected"))] /\
    sendCalls (trace o) = [] /\
    pendingWriteBuffer (this (world o)) = None /\
    pendingWriteCallback (this (world o)) = None.
Proof.
  intros w handle buffer cb Hb Hcb Hrs o. unfold o.
  rewrite (advance_closed quiet handle w cb Hcb Hrs), callWrite_quiet.
  repeat split.
Qed.

Lemma C3_witness :
  trace (_maybeProcessPendingWrite quiet closedSocket
           (queuedWorld 10 [1; 2; 3] 1%nat)) =
    [CallWrite 1%nat (Some (newError "not connected"))].
Proof.
  apply (C3_closed_fails_pending_write (queuedWorld 10 [1; 2; 3] 1%nat)
           closedSocket (bytes [1; 2; 3]) 1%nat); reflexivity.
Defined.

(** Whenever a run of the advance routine calls a write callback, it has
    cleared both pending fields and calls the pending callback, once. *)
Lemma advance_completion handle w cb :
  pendingWriteCallback (this w) = Some cb ->
  writeCalls (trace (_maybeProcessPendingWrite quiet handle w)) = [] \/
  exists error,
    writeCalls (trace (_maybeProcessPendingWrite quiet handle w))
      = [(cb, error)] /\
    world (_maybeProcessPendingWrite quiet handle w) = clearPending w.
Proof.
  intros Hcb. advance_cases handle w; auto;
    replace cb0 with cb in * by congruence;
    right; eexists; split; reflexivity.
Qed.

(** C6.  Completing an outstanding write, with an error or without:
    [_finishPendingWrite] runs the callback in the state in which both
    pending fields are already cleared, and calls it exactly once, with
    the value it was given; a callback that calls back into the advance
    routine finds no outstanding write, so that call does nothing.  The
    completions inside the advance routine are of this form. *)
Theorem C6_clear_then_invoke :
  forall (w : World) (error : option Error) (buffer : Buffer.t)
         (cb : WriteCallback),
    pendingWriteBuffer (this w) = Some buffer ->
    pendingWriteCallback (this w) = Some cb ->
    (forall k,
        _finishPendingWrite k error w =
          callWrite k cb error (clearPending w)) /\
    pendingWriteBuffer (this (clearPending w)) = None /\
    pendingWriteCallback (this (clearPending w)) = None /\
    trace (_finishPendingWrite quiet error w) = [CallWrite cb error] /\
    (forall k handle,
        _finishPendingWrite (fun _ _ => _maybeProcessPendingWrite k handle)
          error w =
          mkOutcome (Normal tt) (clearPending w) [CallWrite cb error]) /\
    (forall handle,
        writeCalls (trace (_maybeProcessPendingWrite quiet handle w)) = [] \/
        exists e,
          writeCalls (trace (_maybeProcessPendingWrite quiet handle w))
            = [(cb, e)] /\
          world (_maybeProcessPendingWrite quiet handle w) = clearPending w).
Proof.
  intros w error buffer cb Hb Hcb.
  split; [intros k; now apply finish_spec|].
  split; [reflexivity|]. split; [reflexivity|].
  split; [now rewrite (finish_spec quiet error w cb Hcb)|].
  split.
  - intros k handle. rewrite (finish_spec _ error w cb Hcb).
    unfold callWrite. rewrite bind_perform.
    now rewrite advance_idle by reflexivity.
  - intros handle. now apply advance_completion.
Qed.

Lemma C6_witness :
  trace (_finishPendingWrite quiet None (queuedWorld 10 [1; 2; 3] 1%nat)) =
    [CallWrite 1%nat None] /\
  _finishPendingWrite
    (fun _ _ => _maybeProcessPendingWrite quiet (openSocket 0))
    (Some (newError "not connected")) (queuedWorld 10 [1; 2; 3] 1%nat) =
    mkOutcome (Normal tt) (clearPending (queuedWorld 10 [1; 2; 3] 1%nat))
      [CallWrite 1%nat (Some (newError "not connected"))].
Proof.
  split.
  - apply (C6_clear_then_invoke (queuedWorld 10 [1; 2; 3] 1%nat) None
             (bytes [1; 2; 3]) 1%nat); reflexivity.
  - apply (C6_clear_then_invoke (queuedWorld 10 [1; 2; 3] 1%nat)
             (Some (newError "not connected")) (bytes [1; 2; 3]) 1%nat);
      reflexivity.
Defined.

(** After [_destroy] none of the four listeners is registered. *)
Lemma afterRemoval_unregistered ls r w :
  In r allListeners ->
  registered r (set_listeners (afterRemoval ls) w) = false.
Proof.
  intros Hr. unfold registered. simpl.
  destruct (existsb (sameRegistration r) (afterRemoval ls)) eqn:E; auto.
  apply existsb_exists in E. destruct E as (x & Hin & Hx).
  unfold afterRemoval in Hin.
  repeat (apply filter_In in Hin; destruct Hin as [Hin ?]).
  simpl in Hr.
  destruct Hr as [<-|[<-|[<-|[<-|[]]]]];
    match goal with
    | H : negb (sameRegistration ?a x) = true |- _ =>
        match type of Hx with
        | sameRegistration a x = true => rewrite Hx in H; discriminate
        end
    end.
Qed.

(** C9.  A destroy that does not come from a close or error event, on a
    state with an outstanding write: [_destroy] removes the four
    listeners, closes the handle and passes the error on to the destroy
    callback, and that is all; both pending fields are as before and no
    write callback is called.  The same holds of [destroy], which runs
    [_destroy] when the stream is not yet destroyed and does nothing
    otherwise. *)
Theorem C9_destroy_keeps_pending_write :
  forall (w : World) (error : option Error) (buffer : Buffer.t)
         (cb : WriteCallback),
    pendingWriteBuffer (this w) = Some buffer ->
    pendingWriteCallback (this w) = Some cb ->
    (let o := _destroy error (fun e => perform (CallDestroy e)) w in
     trace o = destroyTrace error /\
     this (world o) = this w /\
     (forall r, In r allListeners -> registered r (world o) = false)) /\
    (let o := destroy error w in
     pendingWriteBuffer (this (world o)) = Some buffer /\
     pendingWriteCallback (this (world o)) = Some cb /\
     writeCalls (trace o) = [] /\
     sendCalls (trace o) = [] /\
     (destroyed w = false ->
      trace o = destroyTrace error /\
      destroyed (world o) = true /\
      forall r, In r allListeners -> registered r (world o) = false) /\
     (destroyed w = true -> trace o = [] /\ world o = w)).
Proof.
  intros w error buffer cb Hb Hcb. split.
  - rewrite _destroy_spec. simpl. repeat split.
    intros r Hr. now apply afterRemoval_unregistered.
  - destroy_cases error w; repeat split; auto; try discriminate.
    intros r Hr. now apply afterRemoval_unregistered.
Qed.

Lemma C9_witness :
  trace (destroy None (queuedWorld 10 [1; 2; 3] 1%nat)) = destroyTrace None /\
  pendingWriteBuffer
    (this (world (destroy None (queuedWorld 10 [1; 2; 3] 1%nat))))
    = Some (bytes [1; 2; 3]) /\
  pendingWriteCallback
    (this (world (destroy None (queuedWorld 10 [1; 2; 3] 1%nat))))
    = Some 1%nat.
Proof.
  destruct (C9_destroy_keeps_pending_write (queuedWorld 10 [1; 2; 3] 1%nat)
              None (bytes [1; 2; 3]) 1%nat eq_refl eq_refl)
    as (_ & Hb & Hcb & _ & _ & Hlive & _).
  destruct (Hlive eq_refl) as (Htr & _).
  repeat split; assumption.
Defined.

(** C10.  [_writev] sets the pending buffer to the concatenation of the
    chunks, strings as their UTF-8 bytes, and the pending callback to the
    new callback, whatever the pending fields were, and then runs the
    advance routine.  A callback that was pending before, different from
    the new one, is not called during the call nor by any later call,
    unless it is handed in again. *)
Theorem C10_writev_replaces_pending :
  forall (w : World) (handle : Handle) (chunks : list ChunkItem)
         (callback : WriteCallback),
    (forall k,
        _writev k handle chunks callback w =
          _maybeProcessPendingWrite k handle
            (installPending (submitted chunks) callback w)) /\
    pendingWriteBuffer (this (installPending (submitted chunks) callback w))
      = Some (Buffer.concat (map (fun c => chunkBytes (chunk c)) chunks)) /\
    pendingWriteCallback (this (installPending (submitted chunks) callback w))
      = Some callback /\
    forall old,
      pendingWriteCallback (this w) = Some old ->
      old <> callback ->
      ~ In old (map fst (writeCalls (trace (_writev quiet handle chunks
                                              callback w)))) /\
      forall ops,
        Forall (fun hop => ~ submits (snd hop) old) ops ->
        ~ In old
            (map fst
               (writeCalls
                  (snd (runOps quiet
                          ((handle, OpWritev chunks callback) :: ops) w)))).
Proof.
  intros w handle chunks callback.
  split; [intros k; apply writev_spec|].
  split; [reflexivity|]. split; [reflexivity|].
  intros old Hold Hneq.
  assert (Hall : forall ops,
             Forall (fun hop => ~ submits (snd hop) old) ops ->
             ~ In old
                 (map fst
                    (writeCalls
                       (snd (runOps quiet
                               ((handle, OpWritev chunks callback) :: ops)
                               w))))).
  { intros ops Hops.
    change (runOps quiet ((handle, OpWritev chunks callback) :: ops) w)
      with (let '(w', tr) :=
              runOps quiet ops (world (_writev quiet handle chunks callback w))
            in (w', trace (_writev quiet handle chunks callback w) ++ tr)).
    rewrite writev_spec.
    set (w1 := installPending (submitted chunks) callback w).
    pose proof (runOps_never_calls old
                  ((handle, OpTimer) :: ops) w1) as H.
    simpl in H. apply H.
    - intros Heq. injection Heq as Heq. now apply Hneq.
    - constructor; auto. }
  split; [|exact Hall].
  pose proof (Hall [] (Forall_nil _)) as H. simpl in H.
  now rewrite app_nil_r in H.
Qed.

Lemma C10_witness :
  pendingWriteBuffer
    (this (installPending
             (submitted [mkChunkItem (StringChunk [104; 233]) "utf8"])
             2%nat (queuedWorld 10 [1; 2; 3] 1%nat)))
    = Some (bytes [104; 195; 169]) /\
  ~ In 1%nat
      (map fst
         (writeCalls
            (snd (runOps quiet
                    [(connectingSocket,
                      OpWritev [mkChunkItem (StringChunk [104; 233]) "utf8"]
                        2%nat);
                     (closedSocket, OpDispatch CloseEvent)]
                    (queuedWorld 10 [1; 2; 3] 1%nat))))).
Proof.
  destruct (C10_writev_replaces_pending (queuedWorld 10 [1; 2; 3] 1%nat)
              connectingSocket [mkChunkItem (StringChunk [104; 233]) "utf8"]
              2%nat)
    as (_ & Hb & _ & Hold).
  split; [exact Hb|].
  destruct (Hold 1%nat eq_refl) as (_ & Hlater); [discriminate|].
  apply (Hlater [(closedSocket, OpDispatch CloseEvent)]).
  repeat constructor. simpl. auto.
Defined.

(** C5.  In every state the adapter can reach from its construction by
    calls of the host (writes, timers, events, destroy, completion), the
    pending buffer is absent if and only if the pending callback is. *)
Theorem C5_pending_fields_paired :
  forall w : World,
    Reachable w ->
    (pendingWriteBuffer (this w) = None <->
     pendingWriteCallback (this w) = None).
Proof. intros w Hw. now apply reachable_paired. Qed.

Lemma C5_witness :
  pendingWriteBuffer
    (this (fst (runOps quiet
                  [(connectingSocket,
                    OpWrite (BufferChunk (bytes fifteen)) "buffer" 1%nat);
                   (openSocket 0, OpDispatch OpenEvent);
                   (openSocket 5, OpTimer)]
                  (freshWorld 10)))) = None <->
  pendingWriteCallback
    (this (fst (runOps quiet
                  [(connectingSocket,
                    OpWrite (BufferChunk (bytes fifteen)) "buffer" 1%nat);
                   (openSocket 0, OpDispatch OpenEvent);
                   (openSocket 5, OpTimer)]
                  (freshWorld 10)))) = None.
Proof.
  apply C5_pending_fields_paired.
  apply reachable_runOps, freshWorld_reachable.
Defined.

(** ** Close and error events *)

Lemma dispatch_close_or_error handle ev w :
  isCloseOrError ev ->
  registered (listenerFor ev) w = true ->
  dispatch quiet handle ev w =
    (_maybeProcessPendingWrite quiet handle ;;
     destroy (Some (destroyErrorFor ev))) w.
Proof.
  intros Hev Hreg. destruct ev as [| |[[m|]]|data]; try contradiction;
    unfold dispatch; rewrite bind_gets; simpl in Hreg; rewrite Hreg;
    reflexivity.
Qed.

Lemma registered_live w r :
  wired w -> registered r w = true ->
  destroyed w = false /\ listeners w = allListeners.
Proof.
  intros [[Hd Hl]|[Hd Hl]] Hreg; [now split|].
  unfold registered in Hreg. rewrite Hl in Hreg. discriminate.
Qed.

(** ** Writes submitted before the handle is open *)

Lemma onOpen_spec k handle w :
  _onOpen k handle w =
    after [Emit "connect"] (_maybeProcessPendingWrite k handle w).
Proof. unfold _onOpen. now rewrite bind_perform. Qed.

(** C8.  A write submitted to a live, reachable adapter while the handle
    is neither open nor closed: [_writev] installs the write and sends
    nothing; the advance routine, run again in such a state of the
    handle, does nothing; no call whatever sends anything as long as the
    handle is not in the open state; and when the open event arrives, the
    handle then accepting, the pending buffer is sent in full, in order,
    possibly over several retries, and the callback is called without
    error. *)
Theorem C8_connecting_write_waits_for_open :
  forall (w : World) (connecting : Handle) (chunks : list ChunkItem)
         (cb : WriteCallback),
    Reachable w ->
    destroyed w = false ->
    readyState connecting <> openStateValue (this w) ->
    readyState connecting <> closedStateValue (this w) ->
    let o := _writev quiet connecting chunks cb w in
    trace o = [] /\
    pendingWriteBuffer (this (world o)) = Some (submitted chunks) /\
    pendingWriteCallback (this (world o)) = Some cb /\
    (forall handle,
        readyState handle <> openStateValue (this w) ->
        readyState handle <> closedStateValue (this w) ->
        _maybeProcessPendingWrite quiet handle (world o) =
          mkOutcome (Normal tt) (world o) []) /\
    (forall ops,
        Forall (fun hop => readyState (fst hop) <> openStateValue (this w))
          ops ->
        sendCalls (snd (runOps quiet ops (world o))) = []) /\
    (forall (env : nat -> Handle) (fuel t : nat),
        (forall n, accepting w (env n)) ->
        (List.length (submitted chunks) <= fuel)%nat ->
        let o' :=
          fst (settle fuel env (S t)
                 (dispatch quiet (env t) OpenEvent (world o))) in
        sentBytes (trace o') = submitted chunks /\
        writeCalls (trace o') = [(cb, None)] /\
        pendingWriteBuffer (this (world o')) = None /\
        pendingWriteCallback (this (world o')) = None).
Proof.
  intros w connecting chunks cb Hw Hd Hno Hnc o.
  pose proof (reachable_sentinels w Hw) as Hsent.
  set (w1 := installPending (submitted chunks) cb w) in *.
  assert (Hb1 : pendingWriteBuffer (this w1) = Some (submitted chunks))
    by reflexivity.
  assert (Hcb1 : pendingWriteCallback (this w1) = Some cb) by reflexivity.
  assert (Hcfg : config w = config w1) by reflexivity.
  assert (Hl1 : listeners w1 = listeners w) by reflexivity.
  assert (Ho : o = mkOutcome (Normal tt) w1 []).
  { unfold o. rewrite writev_spec.
    now apply (advance_waiting quiet connecting w1 cb). }
  clearbody w1. rewrite Ho. cbn [trace world].
  assert (Hopen1 : openStateValue (this w1) = openStateValue (this w)).
  { unfold config in Hcfg. congruence. }
  assert (Hclosed1 : closedStateValue (this w1) = closedStateValue (this w)).
  { unfold config in Hcfg. congruence. }
  split; [reflexivity|]. split; [exact Hb1|]. split; [exact Hcb1|].
  split; [|split].
  - intros handle Ho' Hc'.
    apply (advance_waiting quiet handle w1 cb); congruence.
  - intros ops Hops. apply runOps_no_send. now rewrite Hopen1.
  - intros env fuel t Henv Hfuel.
    assert (Hreg : registered (EvOpen, OnOpen) w1 = true).
    { destruct (reachable_wired w Hw) as [[_ Hl]|[Hd' _]]; [|congruence].
      unfold registered. now rewrite Hl1, Hl. }
    assert (Hdispatch : dispatch quiet (env t) OpenEvent w1 =
                          after [Emit "connect"]
                            (_maybeProcessPendingWrite quiet (env t) w1)).
    { unfold dispatch. rewrite bind_gets, Hreg. apply onOpen_spec. }
    rewrite Hdispatch, settle_after by reflexivity.
    assert (Henv1 : forall n, accepting w1 (env n)).
    { intros n. now apply (accepting_config w). }
    assert (Hsent1 : openStateValue (this w1) <> closedStateValue (this w1))
      by congruence.
    destruct (settle_completes env fuel (submitted chunks) cb w1 t
                Hsent1 Henv1 Hb1 Hcb1 Hfuel)
      as (tr & t' & Hs & Hbytes & Hcalls).
    rewrite Hs. simpl. now rewrite Hbytes, Hcalls.
Qed.

Lemma C8_witness :
  trace (_writev quiet connectingSocket
           [mkChunkItem (BufferChunk (bytes fifteen)) "buffer"] 1%nat
           (freshWorld 10)) = [] /\
  sentBytes
    (trace
       (fst (settle 15 (fun _ => openSocket 0) 1
               (dispatch quiet (openSocket 0) OpenEvent
                  (world (_writev quiet connectingSocket
                            [mkChunkItem (BufferChunk (bytes fifteen))
                               "buffer"] 1%nat
                            (freshWorld 10))))))) = bytes fifteen.
Proof.
  destruct (C8_connecting_write_waits_for_open (freshWorld 10)
              connectingSocket
              [mkChunkItem (BufferChunk (bytes fifteen)) "buffer"] 1%nat)
    as (Hquiet & _ & _ & _ & _ & Hopen).
  - apply freshWorld_reachable.
  - reflexivity.
  - discriminate.
  - discriminate.
  - split; [exact Hquiet|].
    apply (Hopen (fun _ => openSocket 0) 15%nat 0%nat).
    + intros n. unfold accepting, bufferSpaceAvailable. simpl.
      repeat split; auto.
    + vm_compute. lia.
Defined.

(** ** Accounting of bytes over arbitrary schedules *)

Lemma advance_accounts handle w :
  readyState handle <> closedStateValue (this w) ->
  (forall c, send handle c = None) ->
  sentBytes (trace (_maybeProcessPendingWrite quiet handle w))
  ++ pendingBytes (world (_maybeProcessPendingWrite quiet handle w))
  = pendingBytes w.
Proof.
  intros Hc Hsend. unfold pendingBytes.
  advance_cases handle w; try congruence;
    repeat match goal with
           | H : pendingWriteBuffer (this w) = _ |- _ => rewrite H
           end; simpl; try reflexivity.
  - rewrite chunkToSend_partial by assumption.
    rewrite app_nil_r. apply slice_split.
  - now rewrite !app_nil_r.
Qed.

Lemma destroy_accounts error w :
  sentBytes (trace (destroy error w)) = [] /\
  pendingBytes (world (destroy error w)) = pendingBytes w.
Proof. destroy_cases error w; split; reflexivity. Qed.

Lemma advance_destroy_accounts handle error w :
  readyState handle <> closedStateValue (this w) ->
  (forall c, send handle c = None) ->
  sentBytes (trace ((_maybeProcessPendingWrite quiet handle ;;
                     destroy error) w))
  ++ pendingBytes (world ((_maybeProcessPendingWrite quiet handle ;;
                           destroy error) w))
  = pendingBytes w.
Proof.
  intros Hc Hsend. rewrite bind_unfold.
  pose proof (advance_accounts handle w Hc Hsend) as Ha.
  destruct (_maybeProcessPendingWrite quiet handle w) as [[[]|e] w' tr];
    simpl in *; auto.
  destruct (destroy_accounts error w') as [Hs Hp].
  now rewrite sentBytes_app, Hs, Hp, app_nil_r.
Qed.

Lemma step_accounts handle op w :
  (isWriteOp op -> pendingWriteCallback (this w) = None) ->
  paired w ->
  readyState handle <> closedStateValue (this w) ->
  (forall c, send handle c = None) ->
  (forall error, op <> OpFinish error) ->
  sentBytes (trace (step quiet handle op w))
  ++ pendingBytes (world (step quiet handle op w))
  = pendingBytes w ++ opBytes op.
Proof.
  intros Hseq Hp Hc Hsend Hfin.
  assert (Hwrite : forall chunks cb,
             pendingWriteCallback (this w) = None ->
             sentBytes (trace (_writev quiet handle chunks cb w))
             ++ pendingBytes (world (_writev quiet handle chunks cb w))
             = pendingBytes w ++ submitted chunks).
  { intros chunks cb Hnone. rewrite writev_spec.
    rewrite (advance_accounts handle
               (installPending (submitted chunks) cb w)) by assumption.
    unfold pendingBytes at 2. apply Hp in Hnone. now rewrite Hnone. }
  destruct op as [c enc cb|chunks cb|size|error|ev| | | |error]; simpl;
    rewrite ?app_nil_r.
  - apply Hwrite. now apply Hseq.
  - apply Hwrite. now apply Hseq.
  - reflexivity.
  - now destruct (destroy_accounts error w) as [-> ->].
  - destruct ev as [| |event|data]; unfold dispatch; rewrite bind_gets;
      match goal with |- context [registered ?r w] =>
        destruct (registered r w) end; simpl; auto.
    + rewrite onOpen_spec. simpl. now apply advance_accounts.
    + now apply advance_destroy_accounts.
    + now apply advance_destroy_accounts.
  - rewrite onOpen_spec. simpl. now apply advance_accounts.
  - now apply advance_destroy_accounts.
  - now apply advance_accounts.
  - now destruct (Hfin error).
Qed.

(** Whatever the schedule of writes, timers and events, as long as no
    write fails: what has been passed to [send], followed by what is
    still pending, is what was pending at the start followed by what has
    been submitted, in order. *)
Lemma runOps_accounts ops :
  forall w,
    paired w ->
    orderly ops w ->
    sentBytes (snd (runOps quiet ops w))
    ++ pendingBytes (fst (runOps quiet ops w))
    = pendingBytes w ++ Buffer.concat (map (fun hop => opBytes (snd hop)) ops).
Proof.
  induction ops as [|[handle op] ops IH]; intros w Hp Hord; simpl.
  - now rewrite app_nil_r.
  - destruct Hord as (Hseq & Hc & Hsend & Hfin & Hrest).
    pose proof (step_accounts handle op w Hseq Hp Hc Hsend Hfin) as Hstep.
    pose proof (step_paired handle op w Hp) as Hp'.
    pose proof (IH _ Hp' Hrest) as IH'.
    pose proof (step_config handle op w) as Hcfg.
    destruct (runOps quiet ops (world (step quiet handle op w))) as [w' tr].
    simpl in *. unfold Buffer.concat in *.
    rewrite sentBytes_app, <- app_assoc, IH', app_assoc, Hstep.
    now rewrite <- app_assoc.
Qed.

(** An adapter is constructed on an open socket, which queues [_onOpen];
    a write of 15 bytes is submitted before that task runs, so the task
    and the retry timer of the write both run the advance routine: the
    bytes still go out in order. *)
Example scenario_tick_overtakes_timer :
  snd (runOps quiet
         [(openSocket 0, OpWrite (BufferChunk (bytes fifteen)) "buffer" 1%nat);
          (openSocket 0, OpTickOnOpen);
          (openSocket 0, OpTimer)]
         (world (constructor WebSocket (openSocket 0)
                   (mkOptions (Some 10) None)))) =
    [Send (bytes [1; 2; 3; 4; 5; 6; 7; 8; 9; 10]);
     SetTimeout 50;
     Emit "connect";
     Send (bytes [11; 12; 13; 14; 15]);
     CallWrite 1%nat None].
Proof. reflexivity. Qed.

(** ** Construction *)

Lemma constructor_trace kind handle options :
  trace (constructor kind handle options) =
    [SetBinaryType "arraybuffer";
     AddEventListener EvOpen OnOpen;
     AddEventListener EvClose OnClose;
     AddEventListener EvError OnError;
     AddEventListener EvMessage OnMessage]
    ++ (if strictEq (readyState handle)
             (openStateValue (this (world (constructor kind handle options))))
        then [NextTick OnOpen]
        else if strictEq (readyState handle)
                  (closedStateValue
                     (this (world (constructor kind handle options))))
             then [NextTick OnClose]
             else []).
Proof.
  rewrite constructor_world. unfold constructor.
  destruct kind; simpl;
    match goal with |- context [strictEq ?a ?b] => destruct (strictEq a b) end;
    simpl; try reflexivity;
    match goal with |- context [strictEq ?a ?b] => destruct (strictEq a b) end;
    reflexivity.
Qed.

(** X1.  Constructing an adapter, through [from] with or without options:
    the stream is live with the four listeners registered and no write
    outstanding; [bufferSize] and [bufferTimeout] are the options given,
    524288 and 50 where omitted; nothing is sent and no callback is
    called.  One task at most is queued: [_onOpen] exactly when the
    handle is already in the open state, [_onClose] exactly when it is
    already in the closed state. *)
Theorem X1_construction :
  forall (kind : HandleKind) (handle : Handle)
         (options : option RTCStreamOptions),
    let o := from kind handle options in
    let s := this (world o) in
    completion o = Normal tt /\
    listeners (world o) = allListeners /\
    destroyed (world o) = false /\
    pendingWriteBuffer s = None /\
    pendingWriteCallback s = None /\
    bufferSize s =
      match options with
      | Some {| opt_bufferSize := Some v |} => v
      | _ => 524288
      end /\
    bufferTimeout s =
      match options with
      | Some {| opt_bufferTimeout := Some v |} => v
      | _ => 50
      end /\
    sendCalls (trace o) = [] /\
    writeCalls (trace o) = [] /\
    timeouts (trace o) = [] /\
    (ticks (trace o) = [OnOpen] <-> readyState handle = openStateValue s) /\
    (ticks (trace o) = [OnClose] <-> readyState handle = closedStateValue s) /\
    (ticks (trace o) = [] <->
     readyState handle <> openStateValue s /\
     readyState handle <> closedStateValue s).
Proof.
  intros kind handle options o s. subst s o. unfold from.
  set (opts := match options with
               | Some options => options
               | None => mkOptions None None
               end).
  rewrite (constructor_trace kind handle opts).
  pose proof (reachable_sentinels _ (reachable_new kind handle opts)) as Hs.
  rewrite constructor_world in *. simpl in Hs |- *.
  split.
  { unfold constructor.
    destruct kind; simpl;
      repeat match goal with
             | |- context [strictEq ?a ?b] => destruct (strictEq a b); simpl
             end; reflexivity. }
  split; [reflexivity|]. split; [reflexivity|].
  split; [reflexivity|]. split; [reflexivity|].
  split; [destruct options as [[[v|] ?]|]; reflexivity|].
  split; [destruct options as [[? [v|]]|]; reflexivity|].
  destruct (strictEq (readyState handle)
              match kind with
              | WebSocket => WebSocket_OPEN
              | RTCDataChannel => StringValue "open"
              end) eqn:Eo;
    [apply strictEq_true_iff in Eo | apply strictEq_false_iff in Eo].
  { simpl. split; [reflexivity|]. split; [reflexivity|].
    split; [reflexivity|]. split; [tauto|]. split.
    - split; [discriminate|]. intros Hc. congruence.
    - split; [discriminate|]. intros [Ho _]. contradiction. }
  destruct (strictEq (readyState handle)
              match kind with
              | WebSocket => WebSocket_CLOSED
              | RTCDataChannel => StringValue "closed"
              end) eqn:Ec;
    [apply strictEq_true_iff in Ec | apply strictEq_false_iff in Ec].
  { simpl. split; [reflexivity|]. split; [reflexivity|].
    split; [reflexivity|]. split.
    - split; [discriminate|]. intros Ho. contradiction.
    - split; [tauto|]. split; [discriminate|]. intros [_ Hc]. contradiction. }
  simpl. split; [reflexivity|]. split; [reflexivity|].
  split; [reflexivity|]. split.
  - split; [discriminate|]. intros Ho. contradiction.
  - split; [split; [discriminate|]; intros Hc; contradiction|tauto].
Qed.

(** ** Retry delays *)

Lemma timeouts_delay tr delay :
  Forall (fun e => forall d, e = SetTimeout d -> d = delay) tr ->
  Forall (fun d => d = delay) (timeouts tr).
Proof.
  induction 1 as [|e tr He _ IH]; simpl; [constructor|].
  destruct e; auto.
Qed.

(** X2.  In whatever order writes, timers, events and destroys reach an
    adapter, every retry timer it arms has the delay [bufferTimeout] it
    was constructed with. *)
Theorem X2_retry_delay_is_bufferTimeout :
  forall (kind : HandleKind) (handle : Handle)
         (options : option RTCStreamOptions) (ops : list (Handle * Op)),
    Forall
      (fun d => d = bufferTimeout (this (world (from kind handle options))))
      (timeouts (snd (runOps quiet ops (world (from kind handle options))))).
Proof.
  intros kind handle options ops.
  set (w := world (from kind handle options)).
  apply timeouts_delay.
  apply (runOps_maintains (fun w' => config w' = config w)
           (fun e => forall d, e = SetTimeout d -> d = bufferTimeout (this w))
           (fun _ => True)); auto.
  - intros h op w0 _ Hc. split.
    + now rewrite step_config.
    + eapply Forall_impl; [|apply step_allowed].
      intros e He d Hd. subst e. simpl in He.
      unfold config in Hc. injection Hc as _ Hbt _ _. congruence.
  - apply Forall_forall. auto.
Qed.

(** ** Messages *)

Lemma runOps_cons k handle op ops w :
  runOps k ((handle, op) :: ops) w =
    (fst (runOps k ops (world (step k handle op w))),
     trace (step k handle op w)
     ++ snd (runOps k ops (world (step k handle op w)))).
Proof. simpl. now destruct (runOps k ops _). Qed.

Lemma registered_all w r :
  listeners w = allListeners -> In r allListeners -> registered r w = true.
Proof.
  intros Hl Hr. unfold registered. rewrite Hl.
  simpl in Hr. destruct Hr as [<-|[<-|[<-|[<-|[]]]]]; reflexivity.
Qed.

(** X3.  Message events delivered to a live adapter: each payload is
    pushed to the readable side at once, binary payloads as they are and
    text as its UTF-8 bytes, one push per message and in the order of
    delivery; nothing else happens, and the state of the adapter,
    an outstanding write included, is as before. *)
Theorem X3_messages_pushed_in_order :
  forall (w : World) (messages : list (Handle * MessageData)),
    Reachable w ->
    destroyed w = false ->
    runOps quiet
      (map (fun m => (fst m, OpDispatch (MessageEvent (snd m)))) messages) w
    = (w, map (fun m => Push (messageBytes (snd m))) messages).
Proof.
  intros w messages Hw Hd.
  assert (Hreg : registered (EvMessage, OnMessage) w = true).
  { destruct (reachable_wired w Hw) as [[_ Hl]|[Hd' _]]; [|congruence].
    apply registered_all; simpl; auto. }
  induction messages as [|[h data] messages IH]; [reflexivity|].
  cbn [map fst snd]. rewrite runOps_cons.
  assert (Hm : step quiet h (OpDispatch (MessageEvent data)) w =
               mkOutcome (Normal tt) w [Push (messageBytes data)]).
  { cbn [step]. unfold dispatch. rewrite bind_gets, Hreg.
    now destruct data. }
  rewrite Hm. cbn [world trace]. now rewrite IH.
Qed.

Lemma X3_witness :
  runOps quiet
    [(openSocket 0, OpDispatch (MessageEvent (TextData [104; 233])));
     (openSocket 0, OpDispatch (MessageEvent (ArrayBufferData (bytes [7]))))]
    (queuedWorld 10 [1; 2; 3] 1%nat)
  = (queuedWorld 10 [1; 2; 3] 1%nat,
     [Push (bytes [104; 195; 169]); Push (bytes [7])]).
Proof.
  apply (X3_messages_pushed_in_order (queuedWorld 10 [1; 2; 3] 1%nat)
           [(openSocket 0, TextData [104; 233]);
            (openSocket 0, ArrayBufferData (bytes [7]))]).
  - apply queuedWorld_reachable.
  - reflexivity.
Defined.

(** ** After destruction *)

(** X4.  Once the stream is destroyed, no event of the handle reaches the
    adapter: an open, close, error or message event is without effect and
    leaves the state as it is; in particular a message is not pushed and
    a close or error event after the first one does not run the destroy
    path again. *)
Theorem X4_events_ignored_after_destroy :
  forall (w : World) (handle : Handle) (ev : TransportEvent),
    Reachable w ->
    destroyed w = true ->
    dispatch quiet handle ev w = mkOutcome (Normal tt) w [].
Proof.
  intros w handle ev Hw Hd.
  destruct (reachable_wired w Hw) as [[Hd' _]|[_ Hl]]; [congruence|].
  destruct ev; unfold dispatch; rewrite bind_gets; unfold registered;
    rewrite Hl; reflexivity.
Qed.

Lemma X4_witness :
  dispatch quiet closedSocket CloseEvent
    (world (destroy None (queuedWorld 10 [1; 2; 3] 1%nat)))
  = mkOutcome (Normal tt)
      (world (destroy None (queuedWorld 10 [1; 2; 3] 1%nat))) [].
Proof.
  apply X4_events_ignored_after_destroy.
  - apply (reachable_step _ closedSocket (OpDestroy None)),
      queuedWorld_reachable.
  - reflexivity.
Defined.

(** X5.  In every state the adapter can reach, the listeners it holds on
    the handle are all four while the stream is live and none once it is
    destroyed: there is never a partial set, and never a listener left
    on a destroyed stream. *)
Theorem X5_listeners_all_or_none :
  forall w : World,
    Reachable w ->
    (destroyed w = false /\ listeners w = allListeners) \/
    (destroyed w = true /\ listeners w = []).
Proof. intros w Hw. now apply reachable_wired. Qed.

Lemma X5_witness :
  (destroyed
     (fst (runOps quiet
             [(closingSocket, OpDispatch (ErrorEvent (mkEvent None)));
              (closedSocket, OpDispatch CloseEvent)]
             (queuedWorld 10 [1; 2; 3] 1%nat))) = false /\
   listeners
     (fst (runOps quiet
             [(closingSocket, OpDispatch (ErrorEvent (mkEvent None)));
              (closedSocket, OpDispatch CloseEvent)]
             (queuedWorld 10 [1; 2; 3] 1%nat))) = allListeners) \/
  (destroyed
     (fst (runOps quiet
             [(closingSocket, OpDispatch (ErrorEvent (mkEvent None)));
              (closedSocket, OpDispatch CloseEvent)]
             (queuedWorld 10 [1; 2; 3] 1%nat))) = true /\
   listeners
     (fst (runOps quiet
             [(closingSocket, OpDispatch (ErrorEvent (mkEvent None)));
              (closedSocket, OpDispatch CloseEvent)]
             (queuedWorld 10 [1; 2; 3] 1%nat))) = []).
Proof.
  apply X5_listeners_all_or_none.
  apply reachable_runOps, queuedWorld_reachable.
Defined.

(** ** The destroy path runs at most once *)

Lemma advance_no_destroy_effects handle w :
  filter isDestroyEffect (trace (_maybeProcessPendingWrite quiet handle w))
    = [].
Proof. advance_cases handle w; reflexivity. Qed.

Lemma destroy_effects error w :
  (destroyed w = true /\
   filter isDestroyEffect (trace (destroy error w)) = [] /\
   destroyed (world (destroy error w)) = true) \/
  (destroyed w = false /\
   filter isDestroyEffect (trace (destroy error w)) = destroyTrace error /\
   destroyed (world (destroy error w)) = true).
Proof. destroy_cases error w; [left|right]; repeat split; assumption. Qed.

Lemma advance_destroy_effects handle error w :
  (filter isDestroyEffect
     (trace ((_maybeProcessPendingWrite quiet handle ;; destroy error) w))
     = [] /\
   destroyed (world ((_maybeProcessPendingWrite quiet handle ;;
                      destroy error) w)) = destroyed w) \/
  (destroyed w = false /\
   filter isDestroyEffect
     (trace ((_maybeProcessPendingWrite quiet handle ;; destroy error) w))
     = destroyTrace error /\
   destroyed (world ((_maybeProcessPendingWrite quiet handle ;;
                      destroy error) w)) = true).
Proof.
  rewrite bind_unfold.
  pose proof (advance_no_destroy_effects handle w) as Hq.
  pose proof (advance_destroyed handle w) as Hd.
  destruct (_maybeProcessPendingWrite quiet handle w) as [[[]|e] w' tr];
    simpl in *; [|left; now split].
  rewrite filter_app, Hq. simpl.
  destruct (destroy_effects error w') as [(Ht & Hf & Hd')|(Hf' & Hf & Hd')].
  - left. split; [exact Hf|]. congruence.
  - right. repeat split; congruence.
Qed.

(** One call either leaves the destroy path alone, or runs it, once, on a
    stream that was live and is destroyed from then on. *)
Lemma step_destroy_effects handle op w :
  (filter isDestroyEffect (trace (step quiet handle op w)) = [] /\
   destroyed (world (step quiet handle op w)) = destroyed w) \/
  (destroyed w = false /\
   destroyed (world (step quiet handle op w)) = true /\
   exists error,
     filter isDestroyEffect (trace (step quiet handle op w))
       = destroyTrace error).
Proof.
  assert (Hquiet : forall w0,
             filter isDestroyEffect
               (trace (_maybeProcessPendingWrite quiet handle w0)) = [] /\
             destroyed (world (_maybeProcessPendingWrite quiet handle w0))
               = destroyed w0).
  { intros w0. split;
      [apply advance_no_destroy_effects | apply advance_destroyed]. }
  assert (Hboth : forall error,
             (filter isDestroyEffect
                (trace ((_maybeProcessPendingWrite quiet handle ;;
                         destroy error) w)) = [] /\
              destroyed (world ((_maybeProcessPendingWrite quiet handle ;;
                                 destroy error) w)) = destroyed w) \/
             (destroyed w = false /\
              destroyed (world ((_maybeProcessPendingWrite quiet handle ;;
                                 destroy error) w)) = true /\
              exists e,
                filter isDestroyEffect
                  (trace ((_maybeProcessPendingWrite quiet handle ;;
                           destroy error) w)) = destroyTrace e)).
  { intros error.
    destruct (advance_destroy_effects handle error w)
      as [H|(Hd & Hf & Hd')]; [now left|].
    right. repeat split; auto. now exists error. }
  destruct op as [c enc cb|chunks cb|size|error|ev| | | |error]; simpl.
  - left. unfold _write. rewrite writev_spec.
    match goal with
    | |- context [_maybeProcessPendingWrite quiet handle ?w0] =>
        destruct (Hquiet w0) as [Hf Hd]
    end.
    split; [exact Hf|exact Hd].
  - left. rewrite writev_spec.
    match goal with
    | |- context [_maybeProcessPendingWrite quiet handle ?w0] =>
        destruct (Hquiet w0) as [Hf Hd]
    end.
    split; [exact Hf|exact Hd].
  - left. now split.
  - destruct (destroy_effects error w) as [(Hd & Hf & Hd')|(Hd & Hf & Hd')].
    + left. split; congruence.
    + right. repeat split; auto. now exists error.
  - destruct ev as [| |event|data]; unfold dispatch; rewrite bind_gets;
      match goal with |- context [registered ?r w] =>
        destruct (registered r w) end; simpl;
      first [ left; now split
            | left; rewrite onOpen_spec; simpl; apply Hquiet
            | apply Hboth
            | left; destruct data; now split ].
  - left. rewrite onOpen_spec. simpl. apply Hquiet.
  - apply Hboth.
  - left. apply Hquiet.
  - left. destruct (pendingWriteCallback (this w)) as [cb|] eqn:Hcb.
    + rewrite (finish_spec quiet error w cb) by assumption. now split.
    + rewrite finish_none by assumption. now split.
Qed.

Lemma runOps_destroy_effects ops :
  forall w,
    filter isDestroyEffect (snd (runOps quiet ops w)) = [] \/
    (destroyed w = false /\
     destroyed (fst (runOps quiet ops w)) = true /\
     exists error,
       filter isDestroyEffect (snd (runOps quiet ops w))
         = destroyTrace error).
Proof.
  induction ops as [|[handle op] ops IH]; intros w; [now left|].
  rewrite runOps_cons. cbn [fst snd]. rewrite filter_app.
  destruct (step_destroy_effects handle op w)
    as [(Hf & Hd)|(Hd & Hd' & e & Hf)].
  - rewrite Hf. simpl.
    destruct (IH (world (step quiet handle op w)))
      as [H|(Hl & Hl' & e & He)]; [now left|].
    right. repeat split; try congruence. now exists e.
  - right. split; [exact Hd|].
    rewrite (runOps_destroyed ops _ Hd'), app_nil_r.
    split; [|now exists e].
    apply (runOps_maintains (fun w' => destroyed w' = true) (fun _ => True)
             (fun _ => True)); auto.
    + intros h o w0 _ Hd0. split.
      * apply (step_preserves (fun w' => destroyed w' = true)
                 (fun _ => True)); auto.
      * apply Forall_forall. auto.
    + apply Forall_forall. auto.
Qed.

(** X6.  Over the whole life of an adapter, in whatever order writes,
    timers, events and destroy calls reach it: [_destroy] runs at most
    once.  Either no listener is ever removed, the handle never closed
    and the destroy callback never called; or all of that happens exactly
    once, in the order message, error, close, open listener, close of the
    handle, destroy callback, and the stream is destroyed at the end. *)
Theorem X6_destroy_path_at_most_once :
  forall (kind : HandleKind) (handle : Handle)
         (options : option RTCStreamOptions) (ops : list (Handle * Op)),
    let run := runOps quiet ops (world (from kind handle options)) in
    filter isDestroyEffect (trace (from kind handle options) ++ snd run) = []
    \/
    (destroyed (fst run) = true /\
     exists error,
       filter isDestroyEffect (trace (from kind handle options) ++ snd run)
         = destroyTrace error).
Proof.
  intros kind handle options ops run. subst run.
  assert (Hc : filter isDestroyEffect (trace (from kind handle options)) = []).
  { unfold from. rewrite constructor_trace. simpl.
    repeat match goal with
           | |- context [strictEq ?a ?b] => destruct (strictEq a b); simpl
           end; reflexivity. }
  rewrite filter_app, Hc. simpl.
  destruct (runOps_destroy_effects ops (world (from kind handle options)))
    as [H|(_ & Hd & e & He)]; [now left|].
  right. split; [exact Hd|]. now exists e.
Qed.

(** ** The headroom: none, negative, positive *)

Lemma slice_negative (b : Buffer.t) (n : Z) :
  n < 0 ->
  Buffer.slice b 0 (Some n) = firstn (Z.to_nat (Buffer.length b + n)) b /\
  Buffer.slice b n None = skipn (Z.to_nat (Buffer.length b + n)) b.
Proof.
  intros Hn. pose proof (length_nonneg b) as Hlen.
  unfold Buffer.slice, Buffer.adjustOffset. simpl (0 =? 0). cbv iota.
  destruct (Z.eqb_spec n 0); [lia|].
  destruct (Z.ltb_spec n 0); [|lia].
  destruct (Z.ltb_spec 0 (n + Buffer.length b)) as [Hpos|Hneg].
  - destruct (Z.ltb_spec 0 (n + Buffer.length b)); [|lia].
    destruct (Z.ltb_spec (n + Buffer.length b) (Buffer.length b)); [|lia].
    split.
    + simpl. f_equal. lia.
    + replace (Buffer.length b + n) with (n + Buffer.length b) by lia.
      apply firstn_all2. rewrite length_skipn.
      unfold Buffer.length in *. lia.
  - destruct (Z.ltb_spec 0 0); [lia|].
    replace (Z.to_nat (Buffer.length b + n)) with 0%nat by lia.
    split; [reflexivity|].
    destruct (Z.ltb_spec 0 (Buffer.length b)); simpl.
    + apply firstn_all2. unfold Buffer.length. lia.
    + destruct b; [reflexivity|]. unfold Buffer.length in *. simpl in *. lia.
Qed.

(** X7.  A write is pending on a reachable adapter and the handle, open,
    reports a buffered amount equal to [bufferSize] whenever it is asked:
    every run of the advance routine sends nothing, calls nothing, leaves
    the pending write as it is and arms one more timer.  However many
    timers fire, the write is still pending: there is no timeout on a
    write. *)
Theorem X7_no_headroom_polls_forever :
  forall (w : World) (env : nat -> Handle) (cb : WriteCallback)
         (fuel t : nat),
    Reachable w ->
    pendingWriteCallback (this w) = Some cb ->
    (forall n, readyState (env n) = openStateValue (this w) /\
               bufferSpaceAvailable w (env n) = 0) ->
    fst (settle fuel env (S t) (_maybeProcessPendingWrite quiet (env t) w)) =
      mkOutcome (Normal tt) w
        (repeat (SetTimeout (bufferTimeout (this w))) (S fuel)).
Proof.
  intros w env cb fuel t Hw Hcb Henv.
  pose proof (reachable_sentinels w Hw) as Hs.
  assert (Hstep : forall n,
             _maybeProcessPendingWrite quiet (env n) w =
               mkOutcome (Normal tt) w [SetTimeout (bufferTimeout (this w))]).
  { intros n. destruct (Henv n) as [Ho Hz].
    apply (advance_no_room quiet (env n) w cb); auto. congruence. }
  revert t. induction fuel as [|fuel IH]; intros t; rewrite Hstep.
  - reflexivity.
  - rewrite settle_armed by reflexivity. cbn [world trace].
    specialize (IH (S t)).
    destruct (settle fuel env (S (S t)) _) as [o' t']. simpl in *.
    now rewrite IH.
Qed.

Lemma X7_witness :
  fst (settle 3 (fun _ => fullSocket) 1
         (_maybeProcessPendingWrite quiet fullSocket
            (queuedWorld 10 [1; 2; 3] 1%nat))) =
    mkOutcome (Normal tt) (queuedWorld 10 [1; 2; 3] 1%nat)
      [SetTimeout 50; SetTimeout 50; SetTimeout 50; SetTimeout 50].
Proof.
  apply (X7_no_headroom_polls_forever (queuedWorld 10 [1; 2; 3] 1%nat)
           (fun _ => fullSocket) 1%nat 3%nat 0%nat).
  - apply queuedWorld_reachable.
  - reflexivity.
  - intros n. split; reflexivity.
Defined.

(** X8.  A write is pending on a reachable adapter and the handle, open
    and not raising, reports more bytes buffered than [bufferSize]: the
    headroom [h] is negative, the advance routine does not wait but sends
    all of the pending buffer except its last [-h] bytes, keeps those
    pending and arms a timer.  When the excess is at least the length of
    the pending buffer, what it sends is an empty chunk and the pending
    buffer stays whole. *)
Theorem X8_negative_headroom_sends_head :
  forall (w : World) (handle : Handle) (buffer : Buffer.t)
         (cb : WriteCallback),
    Reachable w ->
    pendingWriteBuffer (this w) = Some buffer ->
    pendingWriteCallback (this w) = Some cb ->
    readyState handle = openStateValue (this w) ->
    (forall c, send handle c = None) ->
    bufferSpaceAvailable w handle < 0 ->
    let keep := Z.to_nat (Buffer.length buffer + bufferSpaceAvailable w handle) in
    _maybeProcessPendingWrite quiet handle w =
      mkOutcome (Normal tt)
        (set_pendingWriteBuffer (Some (skipn keep buffer)) w)
        [Send (firstn keep buffer); SetTimeout (bufferTimeout (this w))] /\
    (Buffer.length buffer + bufferSpaceAvailable w handle <= 0 ->
     firstn keep buffer = [] /\ skipn keep buffer = buffer).
Proof.
  intros w handle buffer cb Hw Hb Hcb Ho Hsend Hneg keep.
  pose proof (reachable_sentinels w Hw) as Hs.
  pose proof (length_nonneg buffer) as Hlen.
  destruct (slice_negative buffer _ Hneg) as [Hhead Htail].
  split.
  - rewrite (advance_partial quiet handle w cb buffer); auto;
      try congruence; try lia.
    now rewrite Hhead, Htail.
  - intros Hall. unfold keep.
    replace (Z.to_nat (Buffer.length buffer + bufferSpaceAvailable w handle))
      with 0%nat by lia.
    split; reflexivity.
Qed.

Lemma X8_witness :
  _maybeProcessPendingWrite quiet (openSocket 12)
    (queuedWorld 10 [1; 2; 3] 1%nat) =
    mkOutcome (Normal tt)
      (set_pendingWriteBuffer (Some (bytes [2; 3]))
         (queuedWorld 10 [1; 2; 3] 1%nat))
      [Send (bytes [1]); SetTimeout 50] /\
  _maybeProcessPendingWrite quiet (openSocket 13)
    (queuedWorld 10 [1; 2; 3] 1%nat) =
    mkOutcome (Normal tt)
      (set_pendingWriteBuffer (Some (bytes [1; 2; 3]))
         (queuedWorld 10 [1; 2; 3] 1%nat))
      [Send []; SetTimeout 50].
Proof.
  split.
  - apply (X8_negative_headroom_sends_head (queuedWorld 10 [1; 2; 3] 1%nat)
             (openSocket 12) (bytes [1; 2; 3]) 1%nat);
      try reflexivity.
    apply queuedWorld_reachable.
  - apply (X8_negative_headroom_sends_head (queuedWorld 10 [1; 2; 3] 1%nat)
             (openSocket 13) (bytes [1; 2; 3]) 1%nat);
      try reflexivity.
    apply queuedWorld_reachable.
Defined.

Lemma chunkToSend_length handle w buffer :
  0 < bufferSpaceAvailable w handle ->
  Buffer.length (chunkToSend handle w buffer) <= bufferSpaceAvailable w handle.
Proof.
  intros Hpos.
  destruct (Z.lt_ge_cases (bufferSpaceAvailable w handle)
              (Buffer.length buffer)) as [Hlt|Hge].
  - rewrite chunkToSend_partial by assumption.
    rewrite slice_prefix_length; lia.
  - rewrite chunkToSend_whole; lia.
Qed.

Lemma advance_sends_within handle w :
  0 < bufferSpaceAvailable w handle ->
  Forall (fun c => Buffer.length c <= bufferSpaceAvailable w handle)
    (sendCalls (trace (_maybeProcessPendingWrite quiet handle w))).
Proof.
  intros Hpos.
  advance_cases handle w; repeat constructor;
    try (now apply chunkToSend_length); lia.
Qed.

(** X9.  Whatever call reaches the adapter (a write, a timer, an event, a
    destroy), in whatever state: if the headroom computed from the handle
    is positive, no chunk the call passes to [send] is longer than that
    headroom, so that the amount buffered by the handle and the chunk
    together do not exceed [bufferSize]. *)
Theorem X9_chunks_fit_headroom :
  forall (w : World) (handle : Handle) (op : Op),
    0 < bufferSpaceAvailable w handle ->
    Forall
      (fun c => bufferedAmount handle + Buffer.length c <= bufferSize (this w))
      (sendCalls (trace (step quiet handle op w))).
Proof.
  intros w handle op Hpos.
  assert (Hadv : forall w0,
             bufferSize (this w0) = bufferSize (this w) ->
             Forall
               (fun c => bufferedAmount handle + Buffer.length c
                         <= bufferSize (this w))
               (sendCalls (trace (_maybeProcessPendingWrite quiet handle w0)))).
  { intros w0 Hbs.
    assert (Hpos0 : 0 < bufferSpaceAvailable w0 handle).
    { unfold bufferSpaceAvailable in *. lia. }
    eapply Forall_impl; [|apply (advance_sends_within handle w0 Hpos0)].
    intros c Hc. unfold bufferSpaceAvailable in *. simpl in Hc. lia. }
  assert (Hboth : forall error,
             Forall
               (fun c => bufferedAmount handle + Buffer.length c
                         <= bufferSize (this w))
               (sendCalls (trace ((_maybeProcessPendingWrite quiet handle ;;
                                   destroy error) w)))).
  { intros error. rewrite bind_unfold.
    pose proof (Hadv w eq_refl) as Ha.
    destruct (_maybeProcessPendingWrite quiet handle w) as [[[]|e] w' tr];
      simpl in *; auto.
    rewrite sendCalls_app. apply Forall_app. split; auto.
    destroy_cases error w'; constructor. }
  destruct op as [c enc cb|chunks cb|size|error|ev| | | |error]; simpl.
  - unfold _write. rewrite writev_spec. now apply Hadv.
  - rewrite writev_spec. now apply Hadv.
  - constructor.
  - destroy_cases error w; constructor.
  - destruct ev as [| |event|data]; unfold dispatch; rewrite bind_gets;
      match goal with |- context [registered ?r w] =>
        destruct (registered r w) end; simpl;
      first [ constructor
            | rewrite onOpen_spec; simpl; now apply Hadv
            | apply Hboth
            | destruct data; constructor ].
  - rewrite onOpen_spec. simpl. now apply Hadv.
  - apply Hboth.
  - now apply Hadv.
  - destruct (pendingWriteCallback (this w)) as [cb|] eqn:Hcb.
    + rewrite (finish_spec quiet error w cb) by assumption. constructor.
    + rewrite finish_none by assumption. constructor.
Qed.

Lemma X9_witness :
  Forall
    (fun c => bufferedAmount (openSocket 6) + Buffer.length c
              <= bufferSize (this (freshWorld 10)))
    (sendCalls
       (trace (step quiet (openSocket 6)
                 (OpWrite (BufferChunk (bytes fifteen)) "buffer" 1%nat)
                 (freshWorld 10)))).
Proof.
  apply X9_chunks_fit_headroom. reflexivity.
Defined.

(** X10.  A write whose bytes fit the headroom, the handle open and
    accepting the chunk: [_writev] passes all of them to [send] in one
    call and calls the callback without error before it returns, arming
    no timer and leaving no write outstanding.  This includes a write of
    exactly as many bytes as the headroom, and a write of no bytes, for
    which an empty chunk is sent. *)
Theorem X10_fitting_write_completes_at_once :
  forall (w : World) (handle : Handle) (chunks : list ChunkItem)
         (cb : WriteCallback),
    Reachable w ->
    readyState handle = openStateValue (this w) ->
    bufferSpaceAvailable w handle <> 0 ->
    Buffer.length (submitted chunks) <= bufferSpaceAvailable w handle ->
    send handle (submitted chunks) = None ->
    _writev quiet handle chunks cb w =
      mkOutcome (Normal tt) (clearPending w)
        [Send (submitted chunks); CallWrite cb None].
Proof.
  intros w handle chunks cb Hw Ho Hnz Hfit Hsend.
  pose proof (reachable_sentinels w Hw) as Hs.
  rewrite writev_spec.
  rewrite (advance_whole quiet handle
             (installPending (submitted chunks) cb w) cb (submitted chunks));
    try reflexivity; try assumption.
  simpl. congruence.
Qed.

Lemma X10_witness :
  _writev quiet (openSocket 7)
    [mkChunkItem (BufferChunk (bytes [1; 2; 3])) "buffer"] 1%nat
    (freshWorld 10) =
    mkOutcome (Normal tt) (clearPending (freshWorld 10))
      [Send (bytes [1; 2; 3]); CallWrite 1%nat None] /\
  _writev quiet (openSocket 7) [] 2%nat (freshWorld 10) =
    mkOutcome (Normal tt) (clearPending (freshWorld 10))
      [Send []; CallWrite 2%nat None].
Proof.
  split.
  - apply (X10_fitting_write_completes_at_once (freshWorld 10) (openSocket 7)
             [mkChunkItem (BufferChunk (bytes [1; 2; 3])) "buffer"] 1%nat);
      [apply freshWorld_reachable | reflexivity | discriminate
      | vm_compute; discriminate | reflexivity].
  - apply (X10_fitting_write_completes_at_once (freshWorld 10) (openSocket 7)
             [] 2%nat);
      [apply freshWorld_reachable | reflexivity | discriminate
      | vm_compute; discriminate | reflexivity].
Defined.

(** ** Callbacks: which, how often, with what *)

Lemma advance_callbacks handle w :
  map fst (writeCalls (trace (_maybeProcessPendingWrite quiet handle w)))
  ++ pendingCallbacks (world (_maybeProcessPendingWrite quiet handle w))
  = pendingCallbacks w.
Proof.
  unfold pendingCallbacks.
  advance_cases handle w;
    repeat match goal with
           | H : pendingWriteCallback (this w) = _ |- _ => rewrite H
           end; reflexivity.
Qed.

Lemma destroy_callbacks error w :
  writeCalls (trace (destroy error w)) = [] /\
  pendingCallbacks (world (destroy error w)) = pendingCallbacks w.
Proof. destroy_cases error w; split; reflexivity. Qed.

Lemma advance_destroy_callbacks handle error w :
  map fst (writeCalls (trace ((_maybeProcessPendingWrite quiet handle ;;
                               destroy error) w)))
  ++ pendingCallbacks (world ((_maybeProcessPendingWrite quiet handle ;;
                               destroy error) w))
  = pendingCallbacks w.
Proof.
  rewrite bind_unfold.
  pose proof (advance_callbacks handle w) as Ha.
  destruct (_maybeProcessPendingWrite quiet handle w) as [[[]|e] w' tr];
    simpl in *; auto.
  destruct (destroy_callbacks error w') as [Hc Hp].
  now rewrite writeCalls_app, Hc, Hp, app_nil_r.
Qed.

Lemma step_callbacks handle op w :
  (isWriteOp op -> pendingWriteCallback (this w) = None) ->
  map fst (writeCalls (trace (step quiet handle op w)))
  ++ pendingCallbacks (world (step quiet handle op w))
  = pendingCallbacks w ++ opCallbacks op.
Proof.
  intros Hseq.
  assert (Hwrite : forall chunks cb,
             pendingWriteCallback (this w) = None ->
             map fst (writeCalls (trace (_writev quiet handle chunks cb w)))
             ++ pendingCallbacks (world (_writev quiet handle chunks cb w))
             = pendingCallbacks w ++ [cb]).
  { intros chunks cb Hnone. rewrite writev_spec, advance_callbacks.
    unfold pendingCallbacks at 2. now rewrite Hnone. }
  destruct op as [c enc cb|chunks cb|size|error|ev| | | |error]; simpl;
    rewrite ?app_nil_r.
  - apply Hwrite. now apply Hseq.
  - apply Hwrite. now apply Hseq.
  - reflexivity.
  - now destruct (destroy_callbacks error w) as [-> ->].
  - destruct ev as [| |event|data]; unfold dispatch; rewrite bind_gets;
      match goal with |- context [registered ?r w] =>
        destruct (registered r w) end; simpl;
      first [ reflexivity
            | rewrite onOpen_spec; simpl; apply advance_callbacks
            | apply advance_destroy_callbacks
            | destruct data; reflexivity ].
  - rewrite onOpen_spec. simpl. apply advance_callbacks.
  - apply advance_destroy_callbacks.
  - apply advance_callbacks.
  - unfold pendingCallbacks.
    destruct (pendingWriteCallback (this w)) as [cb|] eqn:Hcb.
    + now rewrite (finish_spec quiet error w cb) by assumption.
    + now rewrite finish_none by assumption.
Qed.

Lemma runOps_callbacks ops :
  forall w,
    oneAtATime ops w ->
    map fst (writeCalls (snd (runOps quiet ops w)))
    ++ pendingCallbacks (fst (runOps quiet ops w))
    = pendingCallbacks w
      ++ List.concat (map (fun hop => opCallbacks (snd hop)) ops).
Proof.
  induction ops as [|[handle op] ops IH]; intros w Hord.
  - simpl. now rewrite app_nil_r.
  - destruct Hord as [Hseq Hrest].
    rewrite runOps_cons. cbn [fst snd map List.concat].
    rewrite writeCalls_app, map_app, <- app_assoc, (IH _ Hrest), app_assoc.
    now rewrite (step_callbacks handle op w Hseq), <- app_assoc.
Qed.

(** X11.  Writes are submitted to an adapter one at a time, each only
    when no write is outstanding, while timers, events and destroy calls
    arrive in any order and the handle behaves in any way.  Then the
    write callbacks called so far, followed by the callback of the
    outstanding write if there is one, are the callbacks submitted, in
    the order of submission: no callback is called twice, none is
    skipped, none is called that was not submitted. *)
Theorem X11_callbacks_once_in_order :
  forall (kind : HandleKind) (handle : Handle)
         (options : option RTCStreamOptions) (ops : list (Handle * Op)),
    oneAtATime ops (world (from kind handle options)) ->
    map fst
      (writeCalls (snd (runOps quiet ops (world (from kind handle options)))))
    ++ pendingCallbacks
         (fst (runOps quiet ops (world (from kind handle options))))
    = List.concat (map (fun hop => opCallbacks (snd hop)) ops).
Proof.
  intros kind handle options ops Hord.
  rewrite (runOps_callbacks ops _ Hord).
  unfold from. now rewrite constructor_world.
Qed.

Lemma X11_witness :
  map fst
    (writeCalls
       (snd (runOps quiet
               [(openSocket 0,
                 OpWrite (BufferChunk (bytes fifteen)) "buffer" 1%nat);
                (failingSocket, OpTimer);
                (openSocket 0,
                 OpWrite (BufferChunk (bytes [1])) "buffer" 2%nat);
                (connectingSocket,
                 OpWrite (BufferChunk (bytes [2])) "buffer" 3%nat)]
               (world (from WebSocket connectingSocket
                         (Some (mkOptions (Some 10) None)))))))
  ++ pendingCallbacks
       (fst (runOps quiet
               [(openSocket 0,
                 OpWrite (BufferChunk (bytes fifteen)) "buffer" 1%nat);
                (failingSocket, OpTimer);
                (openSocket 0,
                 OpWrite (BufferChunk (bytes [1])) "buffer" 2%nat);
                (connectingSocket,
                 OpWrite (BufferChunk (bytes [2])) "buffer" 3%nat)]
               (world (from WebSocket connectingSocket
                         (Some (mkOptions (Some 10) None))))))
  = [1%nat; 2%nat; 3%nat].
Proof.
  apply (X11_callbacks_once_in_order WebSocket connectingSocket
           (Some (mkOptions (Some 10) None))).
  simpl. repeat split; intros H; try reflexivity; contradiction.
Defined.

(** X12.  What a write callback is told by one run of the advance
    routine.  The callback called is the pending one, and either the
    handle was in the closed state, nothing was sent and the error is
    "not connected"; or one chunk was passed to [send], which raised, and
    the error is the one raised; or the error is absent, and then the
    whole pending buffer was passed to [send] in this run and [send]
    returned normally. *)
Theorem X12_callback_argument :
  forall (w : World) (handle : Handle) (cb : WriteCallback)
         (error : option Error),
    In (cb, error)
       (writeCalls (trace (_maybeProcessPendingWrite quiet handle w))) ->
    let tr := trace (_maybeProcessPendingWrite quiet handle w) in
    pendingWriteCallback (this w) = Some cb /\
    writeCalls tr = [(cb, error)] /\
    ((error = Some (newError "not connected") /\
      readyState handle = closedStateValue (this w) /\
      sendCalls tr = []) \/
     (exists c e,
         error = Some e /\ sendCalls tr = [c] /\ send handle c = Some e) \/
     (error = None /\
      exists buffer,
        pendingWriteBuffer (this w) = Some buffer /\
        sendCalls tr = [buffer] /\
        send handle buffer = None)).
Proof.
  intros w handle cb error. cbv zeta.
  advance_cases handle w; intros Hin; try contradiction;
    destruct Hin as [Hin|[]]; injection Hin as <- <-;
    (split; [assumption|]); (split; [reflexivity|]).
  - left. repeat split. assumption.
  - right. right. split; [reflexivity|]. now exists buffer.
  - right. left. now exists (chunkToSend handle w buffer), e.
Qed.

Lemma X12_witness :
  pendingWriteCallback (this (queuedWorld 2 [1; 2; 3] 1%nat)) = Some 1%nat /\
  writeCalls
    (trace (_maybeProcessPendingWrite quiet failingSocket
              (queuedWorld 2 [1; 2; 3] 1%nat)))
    = [(1%nat, Some (newError "send failed"))].
Proof.
  destruct (X12_callback_argument (queuedWorld 2 [1; 2; 3] 1%nat)
              failingSocket 1%nat (Some (newError "send failed")))
    as (Hcb & Hcalls & _).
  - simpl. now left.
  - split; assumption.
Defined.

(** ** Destroy and the advance routine *)

(** The advance routine reads and writes the fields of the adapter only:
    the same run on a state that differs in the destroyed flag and in the
    listeners does the same. *)
Lemma advance_frame handle w d ls :
  _maybeProcessPendingWrite quiet handle (mkWorld (this w) d ls) =
    mkOutcome
      (completion (_maybeProcessPendingWrite quiet handle w))
      (mkWorld (this (world (_maybeProcessPendingWrite quiet handle w))) d ls)
      (trace (_maybeProcessPendingWrite quiet handle w)).
Proof.
  assert (Hroom : bufferSpaceAvailable (mkWorld (this w) d ls) handle
                  = bufferSpaceAvailable w handle) by reflexivity.
  assert (Hchunk : forall buffer,
             chunkToSend handle (mkWorld (this w) d ls) buffer
             = chunkToSend handle w buffer) by reflexivity.
  advance_cases handle w.
  - now rewrite (advance_idle quiet handle (mkWorld (this w) d ls)).
  - now rewrite (advance_closed quiet handle (mkWorld (this w) d ls) cb).
  - now rewrite (advance_waiting quiet handle (mkWorld (this w) d ls) cb).
  - now rewrite (advance_no_room quiet handle (mkWorld (this w) d ls) cb).
  - pose proof (advance_quiet_cases handle (mkWorld (this w) d ls)) as H4.
    inversion H4 as [Hn|c1 Hc1 Hr1|c1 Hc1 Hr1 Hr2|c1 Hc1 Hr1 Hr2 Hz
                    |c1 Hc1 Hb1 Hr1 Hr2 Hz|c1 b1 Hc1 Hb1|c1 b1 Hc1 Hb1
                    |c1 b1 e1 Hc1 Hb1];
      simpl in *; congruence.
  - rewrite (advance_partial quiet handle (mkWorld (this w) d ls) cb buffer);
      try assumption; rewrite ?Hroom; try assumption.
    + now rewrite chunkToSend_partial.
    + now rewrite <- (chunkToSend_partial handle w buffer).
  - now rewrite (advance_whole quiet handle (mkWorld (this w) d ls) cb buffer).
  - rewrite (advance_send_raises quiet handle (mkWorld (this w) d ls)
               cb buffer e); try assumption.
    now rewrite Hchunk.
Qed.

(** X13.  Destroying the stream cancels neither an outstanding write nor
    its retry timer.  The advance routine, run after a destroy, does what
    it would have done without it: it makes the same calls to [send],
    arms the same timer, calls the same callback with the same value and
    leaves the same pending fields. *)
Theorem X13_destroy_does_not_stop_advance :
  forall (w : World) (error : option Error) (handle : Handle),
    let before := _maybeProcessPendingWrite quiet handle w in
    let after_ :=
      _maybeProcessPendingWrite quiet handle (world (destroy error w)) in
    trace after_ = trace before /\
    completion after_ = completion before /\
    this (world after_) = this (world before).
Proof.
  intros w error handle before after_. subst before after_.
  destroy_cases error w.
  - repeat split.
  - change (set_listeners (afterRemoval (listeners w)) (set_destroyed true w))
      with (mkWorld (this w) true (afterRemoval (listeners w))).
    rewrite advance_frame. repeat split.
Qed.

(** A write of 15 bytes is half sent when the stream is destroyed; the
    retry timer still fires, and the rest is sent on a socket that has
    been asked to close. *)
Example scenario_timer_after_destroy :
  snd (runOps quiet
         [(openSocket 0, OpWrite (BufferChunk (bytes fifteen)) "buffer" 1%nat);
          (openSocket 0, OpDestroy None);
          (openSocket 0, OpTimer)]
         (freshWorld 10)) =
    [Send (bytes [1; 2; 3; 4; 5; 6; 7; 8; 9; 10]);
     SetTimeout 50]
    ++ destroyTrace None
    ++ [Send (bytes [11; 12; 13; 14; 15]); CallWrite 1%nat None].
Proof. reflexivity. Qed.

(** X14.  Whatever the schedule of writes, retry timers, events and
    destroy calls on a reachable adapter, as long as no write fails or is
    overwritten (writes are submitted only when none is outstanding, the
    handle is never read in the closed state, [send] never raises): the
    bytes passed to [send] so far, followed by the bytes still pending,
    are the bytes that were pending at the start followed by the bytes
    submitted, in order.  No byte is lost, duplicated or reordered, also
    when the headroom is zero or negative and when timers left over from
    earlier writes fire. *)
Theorem X14_bytes_accounted_for :
  forall (w : World) (ops : list (Handle * Op)),
    Reachable w ->
    orderly ops w ->
    sentBytes (snd (runOps quiet ops w))
    ++ pendingBytes (fst (runOps quiet ops w))
    = pendingBytes w ++ Buffer.concat (map (fun hop => opBytes (snd hop)) ops).
Proof.
  intros w ops Hw Hord. apply runOps_accounts; [|exact Hord].
  now apply reachable_paired.
Qed.

Lemma X14_witness :
  sentBytes
    (snd (runOps quiet
            [(openSocket 12, OpWrite (BufferChunk (bytes [4; 5])) "utf8" 2%nat);
             (fullSocket, OpTimer);
             (openSocket 8, OpDispatch OpenEvent)]
            (freshWorld 10)))
  ++ pendingBytes
       (fst (runOps quiet
               [(openSocket 12,
                 OpWrite (BufferChunk (bytes [4; 5])) "utf8" 2%nat);
                (fullSocket, OpTimer);
                (openSocket 8, OpDispatch OpenEvent)]
               (freshWorld 10)))
  = pendingBytes (freshWorld 10) ++ bytes [4; 5].
Proof.
  apply (X14_bytes_accounted_for (freshWorld 10)
           [(openSocket 12, OpWrite (BufferChunk (bytes [4; 5])) "utf8" 2%nat);
            (fullSocket, OpTimer);
            (openSocket 8, OpDispatch OpenEvent)]).
  - apply freshWorld_reachable.
  - simpl. repeat split; intros; try reflexivity; try discriminate;
      try contradiction.
Defined.

(** X15.  Retry timers that fire when no write is outstanding, as timers
    left over from a finished or failed write do, have no effect,
    whatever the handle reports at that moment: nothing is sent, no
    callback is called, no timer is armed, and the state is as before. *)
Theorem X15_stale_timers_do_nothing :
  forall (w : World) (ops : list (Handle * Op)),
    pendingWriteCallback (this w) = None ->
    Forall (fun hop => snd hop = OpTimer) ops ->
    runOps quiet ops w = (w, []).
Proof.
  intros w ops Hnone Hops.
  induction Hops as [|[handle op] ops Hop _ IH]; [reflexivity|].
  simpl in Hop. subst op. rewrite runOps_cons.
  cbn [step]. rewrite advance_idle by assumption.
  cbn [world trace]. now rewrite IH.
Qed.

Lemma X15_witness :
  runOps quiet [(openSocket 0, OpTimer); (closedSocket, OpTimer)]
    (world (_writev quiet (openSocket 0)
              [mkChunkItem (BufferChunk (bytes [1; 2; 3])) "buffer"] 1%nat
              (freshWorld 10)))
  = (world (_writev quiet (openSocket 0)
              [mkChunkItem (BufferChunk (bytes [1; 2; 3])) "buffer"] 1%nat
              (freshWorld 10)), []).
Proof.
  apply X15_stale_timers_do_nothing.
  - reflexivity.
  - repeat constructor.
Defined.

(** ** A write callback that destroys the stream on error *)

Lemma callWrite_duplex cb error w :
  callWrite duplexCallback cb error w =
    after [CallWrite cb error]
      match error with
      | Some e => destroy (Some e) w
      | None => mkOutcome (Normal tt) w []
      end.
Proof. unfold callWrite. rewrite bind_perform. now destruct error. Qed.

Lemma advance_half_set k handle w cb :
  pendingWriteCallback (this w) = Some cb ->
  pendingWriteBuffer (this w) = None ->
  readyState handle <> closedStateValue (this w) ->
  readyState handle = openStateValue (this w) ->
  bufferSpaceAvailable w handle <> 0 ->
  _maybeProcessPendingWrite k handle w =
    mkOutcome (Throw (typeError "cannot read property length of null")) w [].
Proof.
  intros Hcb Hb Hc Ho Hnz. open_world w.
  unfold bufferSpaceAvailable in *. simpl in *. unfold_methods.
  apply strictEq_false_iff in Hc. rewrite Hc, strictEq_refl. simpl.
  apply Z.eqb_neq in Hnz. now rewrite Hnz.
Qed.

(** With the callback of the stream machinery, the advance routine does
    what it does with an inert callback, and then, if it has failed the
    write, the stream is destroyed with the error of the write. *)
Lemma advance_duplex handle w :
  _maybeProcessPendingWrite duplexCallback handle w =
    match failureOf (trace (_maybeProcessPendingWrite quiet handle w)) with
    | Some e =>
        after (trace (_maybeProcessPendingWrite quiet handle w))
          (destroy (Some e) (world (_maybeProcessPendingWrite quiet handle w)))
    | None => _maybeProcessPendingWrite quiet handle w
    end.
Proof.
  advance_cases handle w; unfold failureOf; simpl.
  - now apply advance_idle.
  - rewrite (advance_closed duplexCallback handle w cb) by assumption.
    now rewrite callWrite_duplex.
  - now apply (advance_waiting duplexCallback handle w cb).
  - now apply (advance_no_room duplexCallback handle w cb).
  - now apply (advance_half_set duplexCallback handle w cb).
  - rewrite (advance_partial duplexCallback handle w cb buffer);
      try assumption.
    + now rewrite <- chunkToSend_partial.
    + now rewrite <- chunkToSend_partial.
  - rewrite (advance_whole duplexCallback handle w cb buffer) by assumption.
    now rewrite callWrite_duplex.
  - rewrite (advance_send_raises duplexCallback handle w cb buffer e)
      by assumption.
    now rewrite callWrite_duplex.
Qed.

Lemma advance_duplex_destroyed handle w :
  destroyed w = true ->
  _maybeProcessPendingWrite duplexCallback handle w =
    _maybeProcessPendingWrite quiet handle w.
Proof.
  intros Hd. rewrite advance_duplex.
  pose proof (advance_destroyed handle w) as Hd'. rewrite Hd in Hd'.
  advance_cases handle w; unfold failureOf; simpl; try reflexivity;
    rewrite destroy_again by exact Hd'; reflexivity.
Qed.

(** On a destroyed stream that callback is inert. *)
Lemma step_duplex_destroyed handle op w :
  destroyed w = true ->
  step duplexCallback handle op w = step quiet handle op w.
Proof.
  intros Hd.
  destruct op as [c enc cb|chunks cb|size|error|ev| | | |error]; simpl;
    try reflexivity.
  - unfold _write. rewrite !writev_spec. now apply advance_duplex_destroyed.
  - rewrite !writev_spec. now apply advance_duplex_destroyed.
  - destruct ev as [| |event|data]; unfold dispatch; rewrite !bind_gets;
      match goal with |- context [registered ?r w] =>
        destruct (registered r w) end; try reflexivity.
    + rewrite !onOpen_spec. now rewrite advance_duplex_destroyed.
    + unfold _onClose. rewrite !bind_unfold.
      now rewrite advance_duplex_destroyed.
    + unfold _onError. rewrite !bind_unfold.
      now rewrite advance_duplex_destroyed.
  - rewrite !onOpen_spec. now rewrite advance_duplex_destroyed.
  - unfold _onClose. rewrite !bind_unfold.
    now rewrite advance_duplex_destroyed.
  - now apply advance_duplex_destroyed.
  - destruct (pendingWriteCallback (this w)) as [cb|] eqn:Hcb.
    + rewrite !(finish_spec _ error w cb) by assumption.
      rewrite callWrite_duplex, callWrite_quiet.
      destruct error; [|reflexivity].
      now rewrite destroy_again.
    + now rewrite !finish_none by assumption.
Qed.

Lemma runOps_duplex_destroyed ops :
  forall w,
    destroyed w = true ->
    runOps duplexCallback ops w = runOps quiet ops w.
Proof.
  induction ops as [|[handle op] ops IH]; intros w Hd; [reflexivity|].
  rewrite !runOps_cons, (step_duplex_destroyed handle op w Hd).
  rewrite IH; [reflexivity|].
  apply (step_preserves (fun w' => destroyed w' = true) (fun _ => True));
    auto.
Qed.

Lemma dispatch_close_or_error_with k handle ev w :
  isCloseOrError ev ->
  registered (listenerFor ev) w = true ->
  dispatch k handle ev w =
    (_maybeProcessPendingWrite k handle ;;
     destroy (Some (destroyErrorFor ev))) w.
Proof.
  intros Hev Hreg. destruct ev as [| |[[m|]]|data]; try contradiction;
    unfold dispatch; rewrite bind_gets; simpl in Hreg; rewrite Hreg;
    reflexivity.
Qed.




(** Two events that reach an adapter with a pending write, the write
    callback being that of the stream machinery.  An error event while
    the socket reports the closing state: the destroy path runs and the
    write callback is not called at all.  A close event while the socket
    reports the closed state: the write callback is given "not
    connected", the stream is thereby destroyed with that error, and the
    destroy callback does not see "connection closed". *)
Lemma C4_counterexample :
  pendingWriteBuffer (this (queuedWorld 10 [1; 2; 3] 1%nat))
    = Some (bytes [1; 2; 3]) /\
  pendingWriteCallback (this (queuedWorld 10 [1; 2; 3] 1%nat)) = Some 1%nat /\
  registered (EvError, OnError) (queuedWorld 10 [1; 2; 3] 1%nat) = true /\
  registered (EvClose, OnClose) (queuedWorld 10 [1; 2; 3] 1%nat) = true /\
  trace (dispatch duplexCallback closingSocket (ErrorEvent (mkEvent None))
           (queuedWorld 10 [1; 2; 3] 1%nat)) =
    destroyTrace (Some (newError "connection refused")) /\
  writeCalls
    (trace (dispatch duplexCallback closingSocket (ErrorEvent (mkEvent None))
              (queuedWorld 10 [1; 2; 3] 1%nat))) = [] /\
  trace (dispatch duplexCallback closedSocket CloseEvent
           (queuedWorld 10 [1; 2; 3] 1%nat)) =
    CallWrite 1%nat (Some (newError "not connected"))
    :: destroyTrace (Some (newError "not connected")).
Proof. repeat split. Qed.

(** C4 (amended).  A close or error event reaches a reachable adapter
    with a pending write.  The advance routine runs first, then the
    destroy path, once: the four listeners are removed, the handle is
    closed and the destroy callback is called; no later call runs the
    destroy path again.  The handler asks for destruction with
    "connection closed" on a close event and, on an error event, with the
    message of the event if it has one and "connection refused"
    otherwise.  With the callback of the stream machinery, which destroys
    the stream on a write error, that is the destroy error unless the
    advance routine has failed the write: then the destroy error is the
    error of the write.  In particular, if the handle is in the closed
    state at that moment, the pending write's callback is called with a
    "not connected" error before the destroy callback, both pending
    fields are cleared, and the destroy error is "not connected".  With a
    write callback that leaves the stream alone, the destroy error is
    always the one the handler asks for. *)
Theorem C4_close_or_error_destroys_once :
  forall (w : World) (handle : Handle) (ev : TransportEvent)
         (buffer : Buffer.t) (cb : WriteCallback),
    Reachable w ->
    pendingWriteBuffer (this w) = Some buffer ->
    pendingWriteCallback (this w) = Some cb ->
    isCloseOrError ev ->
    registered (listenerFor ev) w = true ->
    let advance := _maybeProcessPendingWrite quiet handle w in
    (let o := dispatch duplexCallback handle ev w in
     let error :=
       match failureOf (trace advance) with
       | Some e => e
       | None => destroyErrorFor ev
       end in
     trace o = trace advance ++ destroyTrace (Some error) /\
     filter isDestroyEffect (trace o) = destroyTrace (Some error) /\
     destroyed (world o) = true /\
     listeners (world o) = [] /\
     this (world o) = this (world advance) /\
     (forall ops,
         filter isDestroyEffect (snd (runOps duplexCallback ops (world o)))
           = []) /\
     (readyState handle = closedStateValue (this w) ->
      trace o =
        CallWrite cb (Some (newError "not connected"))
        :: destroyTrace (Some (newError "not connected")) /\
      pendingWriteBuffer (this (world o)) = None /\
      pendingWriteCallback (this (world o)) = None) /\
     (readyState handle <> closedStateValue (this w) ->
      readyState handle <> openStateValue (this w) ->
      trace o = destroyTrace (Some (destroyErrorFor ev)) /\
      pendingWriteBuffer (this (world o)) = Some buffer /\
      pendingWriteCallback (this (world o)) = Some cb)) /\
    (let o := dispatch quiet handle ev w in
     trace o = trace advance ++ destroyTrace (Some (destroyErrorFor ev)) /\
     filter isDestroyEffect (trace o)
       = destroyTrace (Some (destroyErrorFor ev)) /\
     destroyed (world o) = true /\
     listeners (world o) = [] /\
     (forall ops,
         filter isDestroyEffect (snd (runOps quiet ops (world o))) = []) /\
     (readyState handle = closedStateValue (this w) ->
      trace o =
        CallWrite cb (Some (newError "not connected"))
        :: destroyTrace (Some (destroyErrorFor ev)) /\
      pendingWriteBuffer (this (world o)) = None /\
      pendingWriteCallback (this (world o)) = None)).
Proof.
  intros w handle ev buffer cb Hw Hb Hcb Hev Hreg advance.
  destruct (registered_live w _ (reachable_wired w Hw) Hreg) as [Hd Hl].
  assert (Hquiet : filter isDestroyEffect (trace advance) = []).
  { apply advance_no_destroy_effects. }
  split.
  - assert (Ho : dispatch duplexCallback handle ev w =
                 mkOutcome (Normal tt)
                   (set_listeners []
                      (set_destroyed true (world advance)))
                   (trace advance
                    ++ destroyTrace
                         (Some match failureOf (trace advance) with
                               | Some e => e
                               | None => destroyErrorFor ev
                               end))).
    { rewrite (dispatch_close_or_error_with duplexCallback handle ev w Hev Hreg).
      rewrite bind_unfold, advance_duplex. subst advance.
      advance_cases handle w; try congruence; unfold failureOf; simpl;
        repeat (first [ rewrite destroy_first by exact Hd
                      | rewrite destroy_again by reflexivity ]; simpl);
        rewrite Hl; reflexivity. }
    cbv zeta. rewrite Ho. cbn [trace world].
    split; [reflexivity|].
    split; [now rewrite filter_app, Hquiet|].
    split; [reflexivity|]. split; [reflexivity|]. split; [reflexivity|].
    split.
    { intros ops. rewrite runOps_duplex_destroyed by reflexivity.
      now apply runOps_destroyed. }
    split.
    + intros Hrs. subst advance.
      rewrite (advance_closed quiet handle w cb Hcb Hrs), callWrite_quiet.
      repeat split.
    + intros Hnc Hno. subst advance.
      rewrite (advance_waiting quiet handle w cb Hcb Hnc Hno).
      simpl. repeat split; assumption.
  - assert (Ho : dispatch quiet handle ev w =
                 mkOutcome (Normal tt)
                   (set_listeners []
                      (set_destroyed true (world advance)))
                   (trace advance
                    ++ destroyTrace (Some (destroyErrorFor ev)))).
    { rewrite (dispatch_close_or_error handle ev w Hev Hreg).
      rewrite bind_unfold. subst advance.
      advance_cases handle w; try congruence;
        (rewrite destroy_first by exact Hd); simpl; rewrite Hl;
        reflexivity. }
    cbv zeta. rewrite Ho. cbn [trace world].
    split; [reflexivity|].
    split; [now rewrite filter_app, Hquiet|].
    split; [reflexivity|]. split; [reflexivity|].
    split; [intros ops; now apply runOps_destroyed|].
    intros Hrs. subst advance.
    rewrite (advance_closed quiet handle w cb Hcb Hrs), callWrite_quiet.
    repeat split.
Qed.

Lemma C4_witness :
  trace (dispatch duplexCallback closedSocket
           (ErrorEvent (mkEvent (Some "reset"%string)))
           (queuedWorld 10 [1; 2; 3] 1%nat)) =
    CallWrite 1%nat (Some (newError "not connected"))
    :: destroyTrace (Some (newError "not connected")) /\
  trace (dispatch duplexCallback connectingSocket
           (ErrorEvent (mkEvent (Some "reset"%string)))
           (queuedWorld 10 [1; 2; 3] 1%nat)) =
    destroyTrace (Some (newError "reset")).
Proof.
  destruct (C4_close_or_error_destroys_once
              (queuedWorld 10 [1; 2; 3] 1%nat) closedSocket
              (ErrorEvent (mkEvent (Some "reset"%string)))
              (bytes [1; 2; 3]) 1%nat)
    as ((_ & _ & _ & _ & _ & _ & Hclosed & _) & _);
    [apply queuedWorld_reachable | reflexivity | reflexivity | exact I
    | reflexivity |].
  destruct (C4_close_or_error_destroys_once
              (queuedWorld 10 [1; 2; 3] 1%nat) connectingSocket
              (ErrorEvent (mkEvent (Some "reset"%string)))
              (bytes [1; 2; 3]) 1%nat)
    as ((_ & _ & _ & _ & _ & _ & _ & Hwaiting) & _);
    [apply queuedWorld_reachable | reflexivity | reflexivity | exact I
    | reflexivity |].
  split.
  - now destruct (Hclosed eq_refl) as (Htr & _).
  - destruct Hwaiting as (Htr & _); [discriminate | discriminate |].
    exact Htr.
Defined.
